(** * geckolib: the spa connection manager ([GeckoAsyncSpaMan])

    A shallow embedding of [src/geckolib/async_spa_manager.py]: the
    lifecycle state machine driven by [_handle_event], the public
    operations built on it, and one turn of the sequence pump.

    The manager's coroutines are embedded as computations in a state and
    exception monad over a [World]: the manager object, the state of the
    host application and of the network, and the trace of calls that left
    the manager (handler invocations, locator runs, session connects and
    disconnects). The scoped entry and exit and the task supervisor behind
    them are outside the embedding. *)

From stdpp Require Import base option list strings gmap.

Open Scope string_scope.

(** ** Data model *)

(** Modelled from the spec: [GeckoSpaState] lives in [spa_state.py], which
    is not part of the sources; these are the nine states of section 4.1,
    all of which the manager names. *)
Inductive GeckoSpaState : Type :=
  | IDLE
  | LOCATING_SPAS
  | CONNECTING
  | SPA_READY
  | CONNECTED
  | ERROR_SPA_NOT_FOUND
  | ERROR_PING_MISSED
  | ERROR_RF_FAULT
  | ERROR_NEEDS_ATTENTION.

(** Modelled from the spec: [GeckoSpaEvent] lives in [spa_events.py], which
    is not part of the sources. The members the manager names are
    constructors; [OTHER_EVENT] stands for every remaining member of the
    enumeration, identified by its name. *)
Inductive GeckoSpaEvent : Type :=
  | SPA_MAN_ENTER
  | SPA_MAN_EXIT
  | LOCATING_STARTED
  | LOCATING_FINISHED
  | SPA_NOT_FOUND
  | CONNECTION_STARTED
  | CONNECTION_SPA_COMPLETE
  | CONNECTION_FINISHED
  | CONNECTION_PROTOCOL_RETRY_COUNT_EXCEEDED
  | RUNNING_PING_NO_RESPONSE
  | RUNNING_PING_RECEIVED
  | ERROR_RF_ERROR
  | ERROR_PROTOCOL_RETRY_COUNT_EXCEEDED
  | ERROR_TOO_MANY_RF_ERRORS
  | OTHER_EVENT (name : string).

#[global] Instance GeckoSpaState_eq_dec : EqDecision GeckoSpaState.
Proof. solve_decision. Defined.

#[global] Instance GeckoSpaEvent_eq_dec : EqDecision GeckoSpaEvent.
Proof. solve_decision. Defined.

(** Modelled from the spec: a descriptor ([async_spa_descriptor.py], not
    part of the sources) is the data identifying one discovered device. *)
Record GeckoAsyncSpaDescriptor : Type := {
  descriptor_address : string;
  descriptor_identifier : string;
  descriptor_name : string
}.

(** The session object, as [async_connect_to_spa] constructs it:
    [GeckoAsyncSpa(self._client_id, spa_descriptor, self, self._handle_event)]. *)
Record GeckoAsyncSpa : Type := {
  spa_client_id : string;
  spa_descriptor : GeckoAsyncSpaDescriptor
}.

(** The facade, as [async_connect_to_spa] constructs it:
    [GeckoAsyncFacade(self._spa, self)]; the first argument is whatever
    [self._spa] holds at that moment. *)
Record GeckoAsyncFacade : Type := {
  facade_spa : option GeckoAsyncSpa
}.

(** Values carried in the keyword payload of an event. *)
Inductive PyValue : Type :=
  | PyNone
  | PyStr (s : string)
  | PyDescriptors (l : list GeckoAsyncSpaDescriptor)
  | PyFacade (f : GeckoAsyncFacade)
  | PyOpaque (n : nat).

(** [**kwargs] of an event: a dictionary from keyword to value. *)
Abbreviation kwargs := (gmap string PyValue).

(** Exceptions. [AssertionError] is what a failing [assert] of the manager
    raises; whatever a collaborator or the handler raises is an
    [Exception], told apart by its description. *)
Inductive Exn : Type :=
  | AssertionError
  | Exception (what : string).

(** The fields of a [GeckoAsyncSpaMan] instance. [_status_line] is absent
    until the first event is dispatched ([__init__] does not assign it). *)
Record GeckoAsyncSpaMan : Type := {
  _client_id : string;
  _spa_address : option string;
  _spa_identifier : option string;
  _spa_name : option string;
  _spa_descriptors : option (list GeckoAsyncSpaDescriptor);
  _facade : option GeckoAsyncFacade;
  _spa : option GeckoAsyncSpa;
  _spa_state : GeckoSpaState;
  _status_line : option string
}.

(** Field updates ([self._x = v]). *)
Definition set_spa_address (v : option string) (self : GeckoAsyncSpaMan) :=
  {| _client_id := _client_id self; _spa_address := v;
     _spa_identifier := _spa_identifier self; _spa_name := _spa_name self;
     _spa_descriptors := _spa_descriptors self; _facade := _facade self;
     _spa := _spa self; _spa_state := _spa_state self;
     _status_line := _status_line self |}.

Definition set_spa_identifier (v : option string) (self : GeckoAsyncSpaMan) :=
  {| _client_id := _client_id self; _spa_address := _spa_address self;
     _spa_identifier := v; _spa_name := _spa_name self;
     _spa_descriptors := _spa_descriptors self; _facade := _facade self;
     _spa := _spa self; _spa_state := _spa_state self;
     _status_line := _status_line self |}.

Definition set_spa_name (v : option string) (self : GeckoAsyncSpaMan) :=
  {| _client_id := _client_id self; _spa_address := _spa_address self;
     _spa_identifier := _spa_identifier self; _spa_name := v;
     _spa_descriptors := _spa_descriptors self; _facade := _facade self;
     _spa := _spa self; _spa_state := _spa_state self;
     _status_line := _status_line self |}.

Definition set_spa_descriptors (v : option (list GeckoAsyncSpaDescriptor))
    (self : GeckoAsyncSpaMan) :=
  {| _client_id := _client_id self; _spa_address := _spa_address self;
     _spa_identifier := _spa_identifier self; _spa_name := _spa_name self;
     _spa_descriptors := v; _facade := _facade self;
     _spa := _spa self; _spa_state := _spa_state self;
     _status_line := _status_line self |}.

Definition set_facade (v : option GeckoAsyncFacade) (self : GeckoAsyncSpaMan) :=
  {| _client_id := _client_id self; _spa_address := _spa_address self;
     _spa_identifier := _spa_identifier self; _spa_name := _spa_name self;
     _spa_descriptors := _spa_descriptors self; _facade := v;
     _spa := _spa self; _spa_state := _spa_state self;
     _status_line := _status_line self |}.

Definition set_spa (v : option GeckoAsyncSpa) (self : GeckoAsyncSpaMan) :=
  {| _client_id := _client_id self; _spa_address := _spa_address self;
     _spa_identifier := _spa_identifier self; _spa_name := _spa_name self;
     _spa_descriptors := _spa_descriptors self; _facade := _facade self;
     _spa := v; _spa_state := _spa_state self;
     _status_line := _status_line self |}.

Definition set_spa_state (v : GeckoSpaState) (self : GeckoAsyncSpaMan) :=
  {| _client_id := _client_id self; _spa_address := _spa_address self;
     _spa_identifier := _spa_identifier self; _spa_name := _spa_name self;
     _spa_descriptors := _spa_descriptors self; _facade := _facade self;
     _spa := _spa self; _spa_state := v;
     _status_line := _status_line self |}.

Definition set_status_line (v : option string) (self : GeckoAsyncSpaMan) :=
  {| _client_id := _client_id self; _spa_address := _spa_address self;
     _spa_identifier := _spa_identifier self; _spa_name := _spa_name self;
     _spa_descriptors := _spa_descriptors self; _facade := _facade self;
     _spa := _spa self; _spa_state := _spa_state self;
     _status_line := v |}.

(** [str()] of the two enumerations, as the status line's f-string
    renders them. *)
Definition str_state (s : GeckoSpaState) : string :=
  "GeckoSpaState." ++
  match s with
  | IDLE => "IDLE"
  | LOCATING_SPAS => "LOCATING_SPAS"
  | CONNECTING => "CONNECTING"
  | SPA_READY => "SPA_READY"
  | CONNECTED => "CONNECTED"
  | ERROR_SPA_NOT_FOUND => "ERROR_SPA_NOT_FOUND"
  | ERROR_PING_MISSED => "ERROR_PING_MISSED"
  | ERROR_RF_FAULT => "ERROR_RF_FAULT"
  | ERROR_NEEDS_ATTENTION => "ERROR_NEEDS_ATTENTION"
  end.

Definition str_event (e : GeckoSpaEvent) : string :=
  "GeckoSpaEvent." ++
  match e with
  | SPA_MAN_ENTER => "SPA_MAN_ENTER"
  | SPA_MAN_EXIT => "SPA_MAN_EXIT"
  | LOCATING_STARTED => "LOCATING_STARTED"
  | LOCATING_FINISHED => "LOCATING_FINISHED"
  | SPA_NOT_FOUND => "SPA_NOT_FOUND"
  | CONNECTION_STARTED => "CONNECTION_STARTED"
  | CONNECTION_SPA_COMPLETE => "CONNECTION_SPA_COMPLETE"
  | CONNECTION_FINISHED => "CONNECTION_FINISHED"
  | CONNECTION_PROTOCOL_RETRY_COUNT_EXCEEDED =>
      "CONNECTION_PROTOCOL_RETRY_COUNT_EXCEEDED"
  | RUNNING_PING_NO_RESPONSE => "RUNNING_PING_NO_RESPONSE"
  | RUNNING_PING_RECEIVED => "RUNNING_PING_RECEIVED"
  | ERROR_RF_ERROR => "ERROR_RF_ERROR"
  | ERROR_PROTOCOL_RETRY_COUNT_EXCEEDED => "ERROR_PROTOCOL_RETRY_COUNT_EXCEEDED"
  | ERROR_TOO_MANY_RF_ERRORS => "ERROR_TOO_MANY_RF_ERRORS"
  | OTHER_EVENT name => name
  end.

(** Optional values as they travel in a payload. *)
Definition py_opt_str (o : option string) : PyValue :=
  match o with Some s => PyStr s | None => PyNone end.

Definition py_opt_descriptors (o : option (list GeckoAsyncSpaDescriptor)) : PyValue :=
  match o with Some l => PyDescriptors l | None => PyNone end.

Definition py_opt_facade (o : option GeckoAsyncFacade) : PyValue :=
  match o with Some f => PyFacade f | None => PyNone end.

(** ** Construction *)

Section Construction.

(** [GeckoConstants.FORMAT_CLIENT_IDENTIFIER.format(uuid).encode(...)]:
    the two constants live in [const.py], which is not part of the
    sources, so the rendering of the client identity is a parameter. *)
Variable client_identifier : string -> string.

(** [kwargs.get(key, None)] followed by the empty-string test of
    [__init__]. *)
Definition hint_from_config (kw : gmap string string) (key : string)
    : option string :=
  let v := kw !! key in
  if decide (v = Some "") then None else v.

Definition __init__ (client_uuid : string) (kw : gmap string string)
    : GeckoAsyncSpaMan :=
  {| _client_id := client_identifier client_uuid;
     _spa_address := hint_from_config kw "spa_address";
     _spa_identifier := hint_from_config kw "spa_identifier";
     _spa_name := hint_from_config kw "spa_name";
     _spa_descriptors := None;
     _facade := None;
     _spa := None;
     _spa_state := IDLE;
     _status_line := None |}.

End Construction.

(** ** Effects *)

(** What a call ends with: a returned value or a raised exception. *)
Inductive Outcome (A : Type) : Type :=
  | Returned (a : A)
  | Raised (e : Exn).
Arguments Returned {A} a.
Arguments Raised {A} e.

(** The calls that leave the manager, in the order they happen. *)
Inductive Action : Type :=
  | Forwarded (event : GeckoSpaEvent) (kw : kwargs)
      (* [self.handle_event(event, **kwargs)] *)
  | LocatorDiscover (spa_address spa_identifier : option string)
      (* [GeckoAsyncLocator(..., spa_address, spa_identifier).discover()] *)
  | SpaConnect (spa : GeckoAsyncSpa)
      (* [self._spa.connect()] *)
  | SpaDisconnect (spa : GeckoAsyncSpa).
      (* [self._spa.disconnect()] *)

(** Modelled from the spec: the Locator ([async_locator.py]) is not part
    of the sources. Section 6 gives it the manager's event callback, an
    async [discover()] and the ordered list [spas] read afterwards; section
    4.3 lets discovery fail. One run reports events through the callback
    and then either raises or leaves its list of descriptors. *)
Record LocatorRun : Type := {
  locator_events : list (GeckoSpaEvent * kwargs);
  locator_result : string + list GeckoAsyncSpaDescriptor
}.

(** Modelled from the spec: the Session ([async_spa.py]) is not part of the
    sources. Section 6 gives it the manager's event callback and async
    [connect()] and [disconnect()]; it "reports internal completion via the
    event channel". One handshake reports events through the callback and
    then returns or raises. *)
Record SessionRun : Type := {
  session_events : list (GeckoSpaEvent * kwargs);
  session_result : option string
}.

Section Manager.

(** The state of everything outside the manager: the host application
    behind the abstract handler, and the network. *)
Context {Env : Type}.

(** The collaborators of the manager. [handle_event] is the abstract
    method the host implements: it sees the manager and the event with its
    payload, and returns or raises. [disconnect] is the Session's, for which
    the spec names no failure and no event. *)
Record Collaborators : Type := {
  handle_event : GeckoAsyncSpaMan -> GeckoSpaEvent -> kwargs -> Env -> option string * Env;
  discover : option string -> option string -> Env -> LocatorRun * Env;
  connect : GeckoAsyncSpa -> Env -> SessionRun * Env;
  disconnect : GeckoAsyncSpa -> Env -> Env
}.

Variable C : Collaborators.

Record World : Type := {
  man : GeckoAsyncSpaMan;
  env : Env;
  trace : list Action
}.

(** A coroutine of the manager. *)
Definition M (A : Type) : Type := World -> Outcome A * World.

#[local] Instance M_ret : MRet M := fun A a w => (Returned a, w).

#[local] Instance M_bind : MBind M := fun A B f m w =>
  match m w with
  | (Returned a, w') => f a w'
  | (Raised e, w') => (Raised e, w')
  end.

Definition raise {A : Type} (e : Exn) : M A := fun w => (Raised e, w).

(** [try: body finally: final]: [final] always runs; an exception of
    [final] replaces the outcome of [body]. *)
Definition try_finally {A : Type} (body : M A) (final : M unit) : M A :=
  fun w =>
    let (r, w1) := body w in
    match final w1 with
    | (Returned _, w2) => (r, w2)
    | (Raised e, w2) => (Raised e, w2)
    end.

(** Reading and writing [self]. *)
Definition self : M GeckoAsyncSpaMan := fun w => (Returned (man w), w).

Definition assign (f : GeckoAsyncSpaMan -> GeckoAsyncSpaMan) : M unit :=
  fun w => (Returned tt, {| man := f (man w); env := env w; trace := trace w |}).

Definition pass : M unit := mret tt.

(** [assert cond] *)
Definition assert (cond : bool) : M unit :=
  if cond then pass else raise AssertionError.

(** [await self.handle_event(event, **kwargs)] *)
Definition call_handle_event (event : GeckoSpaEvent) (kw : kwargs) : M unit :=
  fun w =>
    let (r, env') := handle_event C (man w) event kw (env w) in
    let w' := {| man := man w; env := env'; trace := trace w ++ [Forwarded event kw] |} in
    match r with
    | None => (Returned tt, w')
    | Some what => (Raised (Exception what), w')
    end.

(** [await self._spa.disconnect()] *)
Definition call_disconnect (spa : GeckoAsyncSpa) : M unit :=
  fun w =>
    (Returned tt,
     {| man := man w; env := disconnect C spa (env w);
        trace := trace w ++ [SpaDisconnect spa] |}).

(** ** The manager's operations *)

(** [async_reset] *)
Definition async_reset : M unit :=
  assign (set_spa_descriptors None) ;;
  this ← self;
  (if _facade this is Some _ then assign (set_facade None) else pass) ;;
  this ← self;
  (if _spa this is Some spa
   then call_disconnect spa ;; assign (set_spa None)
   else pass) ;;
  assign (set_spa_state IDLE).

(** [state in (a, b, c)] *)
Definition state_in (s : GeckoSpaState) (l : list GeckoSpaState) : bool :=
  bool_decide (s ∈ l).

(** The pre-processing of [_handle_event]: the [if]/[elif] chain on the
    event. *)
Definition pre_process (event : GeckoSpaEvent) : M unit :=
  match event with
  | LOCATING_STARTED => assign (set_spa_state LOCATING_SPAS)
  | LOCATING_FINISHED => assign (set_spa_state IDLE)
  | SPA_NOT_FOUND => assign (set_spa_state ERROR_SPA_NOT_FOUND)
  | CONNECTION_STARTED => assign (set_spa_state CONNECTING)
  | CONNECTION_SPA_COMPLETE => assign (set_spa_state SPA_READY)
  | CONNECTION_FINISHED =>
      this ← self;
      if _facade this is Some _ then assign (set_spa_state CONNECTED) else pass
  | RUNNING_PING_NO_RESPONSE => assign (set_spa_state ERROR_PING_MISSED)
  | RUNNING_PING_RECEIVED =>
      this ← self;
      if state_in (_spa_state this)
           [ERROR_PING_MISSED; ERROR_RF_FAULT; ERROR_NEEDS_ATTENTION]
      then async_reset
      else pass
  | ERROR_RF_ERROR => assign (set_spa_state ERROR_RF_FAULT)
  | CONNECTION_PROTOCOL_RETRY_COUNT_EXCEEDED
  | ERROR_PROTOCOL_RETRY_COUNT_EXCEEDED
  | ERROR_TOO_MANY_RF_ERRORS => assign (set_spa_state ERROR_NEEDS_ATTENTION)
  | SPA_MAN_ENTER | SPA_MAN_EXIT | OTHER_EVENT _ => pass
  end.

(** [_handle_event] *)
Definition _handle_event (event : GeckoSpaEvent) (kw : kwargs) : M unit :=
  pre_process event ;;
  this ← self;
  assign (set_status_line
            (Some ("State: " ++ str_state (_spa_state this)
                   ++ ", last event " ++ str_event event))) ;;
  call_handle_event event kw.

(** A collaborator reporting events through the callback it was given,
    [self._handle_event]: one call per event, in order; an exception of a
    call ends the run. *)
Fixpoint callbacks (events : list (GeckoSpaEvent * kwargs)) : M unit :=
  match events with
  | [] => pass
  | (event, kw) :: rest => _handle_event event kw ;; callbacks rest
  end.

(** [GeckoAsyncLocator(self, self._handle_event, spa_address=...,
    spa_identifier=...)], [await locator.discover()] and the read of
    [locator.spas]. *)
Definition call_discover (spa_address spa_identifier : option string)
    : M (list GeckoAsyncSpaDescriptor) :=
  run ← (fun w =>
    let (run, env') := discover C spa_address spa_identifier (env w) in
    (Returned run,
     {| man := man w; env := env';
        trace := trace w ++ [LocatorDiscover spa_address spa_identifier] |}));
  callbacks (locator_events run) ;;
  match locator_result run with
  | inl what => raise (Exception what)
  | inr spas => mret spas
  end.

(** [await self._spa.connect()] on the session just constructed. *)
Definition call_connect (spa : GeckoAsyncSpa) : M unit :=
  run ← (fun w =>
    let (run, env') := connect C spa (env w) in
    (Returned run,
     {| man := man w; env := env'; trace := trace w ++ [SpaConnect spa] |}));
  callbacks (session_events run) ;;
  match session_result run with
  | Some what => raise (Exception what)
  | None => pass
  end.

(** The [try] block of [async_locate_spas]. *)
Definition locate_try (spa_address spa_identifier : option string) : M unit :=
  _handle_event LOCATING_STARTED ∅ ;;
  spas ← call_discover spa_address spa_identifier;
  assign (set_spa_descriptors (Some spas)).

(** The [finally] block of [async_locate_spas]. *)
Definition locate_finally : M unit :=
  this ← self;
  _handle_event LOCATING_FINISHED
    {[ "spa_descriptors" := py_opt_descriptors (_spa_descriptors this) ]}.

(** [async_locate_spas] *)
Definition async_locate_spas (spa_address spa_identifier : option string)
    : M (option (list GeckoAsyncSpaDescriptor)) :=
  try_finally (locate_try spa_address spa_identifier) locate_finally ;;
  this ← self;
  mret (_spa_descriptors this).

(** The [try] block of [async_connect_to_spa] up to the return of the
    handshake: the started event, the new session, [await
    self._spa.connect()]. *)
Definition connect_handshake (spa_descriptor : GeckoAsyncSpaDescriptor) : M unit :=
  _handle_event CONNECTION_STARTED ∅ ;;
  this ← self;
  let spa := {| spa_client_id := _client_id this;
                spa_descriptor := spa_descriptor |} in
  assign (set_spa (Some spa)) ;;
  call_connect spa.

(** The whole [try] block: the handshake, then the check of the state. *)
Definition connect_try (spa_descriptor : GeckoAsyncSpaDescriptor) : M unit :=
  connect_handshake spa_descriptor ;;
  this ← self;
  if decide (_spa_state this = SPA_READY)
  then assign (set_facade (Some {| facade_spa := _spa this |}))
  else pass.

(** The [finally] block of [async_connect_to_spa]. *)
Definition connect_finally : M unit :=
  this ← self;
  _handle_event CONNECTION_FINISHED
    {[ "facade" := py_opt_facade (_facade this) ]}.

(** [async_connect_to_spa] *)
Definition async_connect_to_spa (spa_descriptor : GeckoAsyncSpaDescriptor)
    : M (option GeckoAsyncFacade) :=
  this ← self;
  assert (bool_decide (_facade this = None)) ;;
  try_finally (connect_try spa_descriptor) connect_finally ;;
  this ← self;
  mret (_facade this).

(** [async_connect] *)
Definition async_connect (spa_identifier : string) (spa_address : option string)
    : M (option GeckoAsyncFacade) :=
  spa_descriptors ← async_locate_spas spa_address (Some spa_identifier);
  assert (bool_decide (spa_descriptors ≠ None)) ;;
  let found := default [] spa_descriptors in
  if decide (length found = 0) then
    _handle_event SPA_NOT_FOUND
      {[ "spa_address" := py_opt_str spa_address;
         "spa_identifier" := PyStr spa_identifier ]} ;;
    mret None
  else
    match found !! 0 with
    | Some first => async_connect_to_spa first
    | None => raise (Exception "IndexError")
    end.

(** [async_set_spa_info] *)
Definition async_set_spa_info (spa_address spa_identifier spa_name : option string)
    : M unit :=
  assign (set_spa_address spa_address) ;;
  assign (set_spa_identifier spa_identifier) ;;
  assign (set_spa_name spa_name) ;;
  async_reset.

(** The properties [spa_descriptors], [facade] and [spa_state]. *)
Definition spa_descriptors (this : GeckoAsyncSpaMan) := _spa_descriptors this.
Definition facade (this : GeckoAsyncSpaMan) := _facade this.
Definition spa_state (this : GeckoAsyncSpaMan) := _spa_state this.

(** One turn of the [while True] loop of [_sequence_pump], up to its
    [await asyncio.sleep(0)]. *)
Definition pump_turn : M unit :=
  this ← self;
  if decide (spa_state this = IDLE) then
    match _spa_identifier this with
    | Some spa_identifier =>
        if _facade this is None
        then async_connect spa_identifier (_spa_address this) ;; pass
        else pass
    | None =>
        if _spa_descriptors this is None
        then async_locate_spas (_spa_address this) None ;; pass
        else pass
    end
  else pass.

(** [_sequence_pump], cut after [turns] turns of its endless loop. The
    zero-length sleep only yields to the scheduler; [except CancelledError]
    re-raises, so an exception of a turn leaves the pump. *)
Fixpoint _sequence_pump (turns : nat) : M unit :=
  match turns with
  | 0 => pass
  | S n => pump_turn ;; _sequence_pump n
  end.

(** The pump's choice for one turn, as section 4.6 words it: only when
    idle; connect by identifier when an identifier hint is configured and no
    facade exists; else discover when no identifier hint is configured and
    no discovery has completed; otherwise nothing. It reads the state, the
    hints, the facade and the descriptors, and nothing else. *)
Inductive PumpDecision : Type :=
  | ConnectByIdentifier (spa_identifier : string) (spa_address : option string)
  | Discover (spa_address : option string)
  | DoNothing.

Definition pump_decision (state : GeckoSpaState)
    (identifier_hint address_hint : option string)
    (facade_now : option GeckoAsyncFacade)
    (descriptors_now : option (list GeckoAsyncSpaDescriptor)) : PumpDecision :=
  match state, identifier_hint, facade_now, descriptors_now with
  | IDLE, Some spa_identifier, None, _ =>
      ConnectByIdentifier spa_identifier address_hint
  | IDLE, None, _, None => Discover address_hint
  | _, _, _, _ => DoNothing
  end.

Definition perform (d : PumpDecision) : M unit :=
  match d with
  | ConnectByIdentifier spa_identifier spa_address =>
      async_connect spa_identifier spa_address ;; pass
  | Discover spa_address => async_locate_spas spa_address None ;; pass
  | DoNothing => pass
  end.

(** ** Observing a run *)

(** The world a call leaves, and what the call ends with. *)
Definition exec {A : Type} (m : M A) (w : World) : World := (m w).2.
Definition outcome {A : Type} (m : M A) (w : World) : Outcome A := (m w).1.

(** The world once the status line has been rebuilt for [event]. *)
Definition stamp (event : GeckoSpaEvent) (w : World) : World :=
  {| man := set_status_line
              (Some ("State: " ++ str_state (_spa_state (man w))
                     ++ ", last event " ++ str_event event)) (man w);
     env := env w; trace := trace w |}.

(** The world after a reset. *)
Definition reset_world (w : World) : World :=
  {| man := set_spa_state IDLE
              (set_spa None (set_facade None (set_spa_descriptors None (man w))));
     env := if _spa (man w) is Some spa then disconnect C spa (env w) else env w;
     trace := if _spa (man w) is Some spa
              then trace w ++ [SpaDisconnect spa] else trace w |}.

(** Successive calls of the dispatcher, by whoever makes them: each runs
    in the world the previous one left, however that one ended. *)
Fixpoint dispatch_all (events : list (GeckoSpaEvent * kwargs)) (w : World) : World :=
  match events with
  | [] => w
  | (event, kw) :: rest => dispatch_all rest (exec (_handle_event event kw) w)
  end.

End Manager.

Arguments Collaborators : clear implicits.
Arguments World : clear implicits.

(** The stream of events the handler received, read off a trace. *)
Definition forwarded (t : list Action) : list (GeckoSpaEvent * kwargs) :=
  omap (fun a => if a is Forwarded event kw then Some (event, kw) else None) t.

(** The sessions whose handshake was attempted, read off a trace. *)
Definition connects (t : list Action) : list GeckoAsyncSpa :=
  omap (fun a => if a is SpaConnect spa then Some spa else None) t.

(** Since a trace [t0]: the trace has only grown, and if the state is
    [SPA_READY] the completion event was forwarded meanwhile. *)
Definition ready_by_completion {Env : Type} (t0 : list Action) (w : World Env) : Prop :=
  exists ext,
    (trace w = t0 ++ ext)%list
    /\ (_spa_state (man w) = SPA_READY ->
        exists kw, Forwarded CONNECTION_SPA_COMPLETE kw ∈ ext).

(** The handler raises on no event. *)
Definition quiet {Env : Type} (C : Collaborators Env) : Prop :=
  forall this event kw en, (handle_event C this event kw en).1 = None.

(** The sessions that were disconnected, read off a trace. *)
Definition disconnects (t : list Action) : list GeckoAsyncSpa :=
  omap (fun a => if a is SpaDisconnect spa then Some spa else None) t.

(** A run of a collaborator that reports no [RUNNING_PING_RECEIVED]. *)
Definition no_ping (events : list (GeckoSpaEvent * kwargs)) : Prop :=
  Forall (fun ek => ek.1 <> RUNNING_PING_RECEIVED) events.

(** The lifecycle state says [CONNECTED] only while a facade exists. *)
Definition connected_has_facade (this : GeckoAsyncSpaMan) : Prop :=
  _spa_state this = CONNECTED -> is_Some (_facade this).

(** What [__init__] and [async_set_spa_info] configure and nothing else
    writes: the client identity and the three hints. *)
Definition configuration (this : GeckoAsyncSpaMan)
    : string * option string * option string * option string :=
  (_client_id this, _spa_address this, _spa_identifier this, _spa_name this).

(** What a reset clears: descriptors, facade and session. *)
Definition holdings (this : GeckoAsyncSpaMan)
    : option (list GeckoAsyncSpaDescriptor) * option GeckoAsyncFacade
      * option GeckoAsyncSpa :=
  (_spa_descriptors this, _facade this, _spa this).

(** The pump's choice in a world. *)
Definition decision_in {Env : Type} (w : World Env) : PumpDecision :=
  pump_decision (_spa_state (man w)) (_spa_identifier (man w))
    (_spa_address (man w)) (_facade (man w)) (_spa_descriptors (man w)).

(** ** A small installation to run the manager on *)

Module Demo.

Definition client_identifier (uuid : string) : string := "IOS" ++ uuid.

Definition spa1 : GeckoAsyncSpaDescriptor :=
  {| descriptor_address := "10.0.0.7";
     descriptor_identifier := "SPA00:01";
     descriptor_name := "Garden" |}.

Definition spa2 : GeckoAsyncSpaDescriptor :=
  {| descriptor_address := "10.0.0.9";
     descriptor_identifier := "SPA00:02";
     descriptor_name := "Roof" |}.

(** A host that records nothing and never raises; a network on which every
    discovery finds [found] and every handshake completes, reporting
    [CONNECTION_SPA_COMPLETE]. *)
Definition network (found : list GeckoAsyncSpaDescriptor) : Collaborators unit :=
  {| handle_event := fun _ _ _ en => (None, en);
     discover := fun _ _ en =>
       ({| locator_events := []; locator_result := inr found |}, en);
     connect := fun _ en =>
       ({| session_events := [(CONNECTION_SPA_COMPLETE, ∅)];
           session_result := None |}, en);
     disconnect := fun _ en => en |}.

(** A network on which discovery fails. *)
Definition broken : Collaborators unit :=
  {| handle_event := fun _ _ _ en => (None, en);
     discover := fun _ _ en =>
       ({| locator_events := []; locator_result := inl "timed out" |}, en);
     connect := fun _ en =>
       ({| session_events := []; session_result := Some "unreachable" |}, en);
     disconnect := fun _ en => en |}.

(** A fresh manager with the given configuration, before any event. *)
Definition fresh (kw : gmap string string) : World unit :=
  {| man := __init__ client_identifier "uuid" kw; env := tt; trace := [] |}.

(** The same manager in a given lifecycle state. *)
Definition in_state (st : GeckoSpaState) (w : World unit) : World unit :=
  {| man := set_spa_state st (man w); env := env w; trace := trace w |}.

(** A manager holding a session and a facade, as after a connection. *)
Definition connected : World unit :=
  let spa := {| spa_client_id := "IOSuuid"; spa_descriptor := spa1 |} in
  {| man := set_spa_state CONNECTED
              (set_facade (Some {| facade_spa := Some spa |})
                 (set_spa (Some spa)
                    (set_spa_descriptors (Some [spa1])
                       (__init__ client_identifier "uuid" ∅))));
     env := tt; trace := [] |}.

End Demo.

(** * Properties *)

Open Scope list_scope.

Section Properties.

Context {Env : Type} (C : Collaborators Env).
Implicit Types (w : World Env) (event : GeckoSpaEvent) (kw : kwargs).

#[local] Existing Instance M_ret.
#[local] Existing Instance M_bind.

(** ** The monad *)

Lemma bind_run {A B : Type} (m : M A) (f : A -> M B) w :
  (m ≫= f) w =
    match m w with
    | (Returned a, w') => f a w'
    | (Raised e, w') => (Raised e, w')
    end.
Proof. reflexivity. Qed.

Lemma exec_bind_returned {A B : Type} (m : M A) (f : A -> M B) w a :
  outcome m w = Returned a -> (m ≫= f) w = f a (exec m w).
Proof.
  unfold outcome, exec. rewrite bind_run.
  destruct (m w) as [r w']; simpl. intros ->. reflexivity.
Qed.

Lemma exec_bind_raised {A B : Type} (m : M A) (f : A -> M B) w e :
  outcome m w = Raised e -> (m ≫= f) w = (Raised e, exec m w).
Proof.
  unfold outcome, exec. rewrite bind_run.
  destruct (m w) as [r w']; simpl. intros ->. reflexivity.
Qed.

(** Run the binds at the head of a computation applied to a world. *)
Ltac run_binds := repeat (rewrite bind_run; simpl).

Lemma try_finally_exec {A : Type} (body : M A) (final : M unit) w :
  exec (try_finally body final) w = exec final (exec body w).
Proof.
  unfold exec, try_finally. destruct (body w) as [r w1]; simpl.
  destruct (final w1) as [[[]|e] w2]; reflexivity.
Qed.

Lemma try_finally_outcome {A : Type} (body : M A) (final : M unit) w :
  outcome (try_finally body final) w =
    match outcome final (exec body w) with
    | Returned _ => outcome body w
    | Raised e => Raised e
    end.
Proof.
  unfold outcome, exec, try_finally. destruct (body w) as [r w1]; simpl.
  destruct (final w1) as [[[]|e] w2]; reflexivity.
Qed.

Lemma exec_bind {A B : Type} (m : M A) (f : A -> M B) w :
  exec (m ≫= f) w =
    match outcome m w with
    | Returned a => exec (f a) (exec m w)
    | Raised _ => exec m w
    end.
Proof.
  unfold exec, outcome. rewrite bind_run.
  destruct (m w) as [[a|e] w']; reflexivity.
Qed.

Lemma bind_then_ret {A B : Type} (m : M A) (b : B) w :
  (m ≫= fun _ => mret b) w =
    (match outcome m w with
     | Returned _ => Returned b
     | Raised e => Raised e
     end, exec m w).
Proof.
  unfold outcome, exec. rewrite bind_run.
  destruct (m w) as [[a|e] w']; reflexivity.
Qed.

Lemma outcome_bind {A B : Type} (m : M A) (f : A -> M B) w :
  outcome (m ≫= f) w =
    match outcome m w with
    | Returned a => outcome (f a) (exec m w)
    | Raised e => Raised e
    end.
Proof.
  unfold exec, outcome. rewrite bind_run.
  destruct (m w) as [[a|e] w']; reflexivity.
Qed.

(** ** Reset *)

Lemma async_reset_run w : async_reset C w = (Returned tt, reset_world C w).
Proof.
  destruct w as [[cid a i n d f s st sl] en tr].
  destruct f, s; reflexivity.
Qed.

(** ** The dispatcher *)

(** The pre-processing never raises. *)
Lemma pre_process_returns event w : outcome (pre_process C event) w = Returned tt.
Proof.
  destruct w as [[cid a i n d f s st sl] en tr].
  destruct event; try reflexivity.
  - destruct f; reflexivity.
  - unfold outcome, pre_process. rewrite bind_run. simpl.
    destruct (state_in st _); [rewrite async_reset_run|]; reflexivity.
Qed.

(** What the pre-processing does to the world: it assigns the state, or
    leaves everything alone, or (a recovering ping) resets. *)
Lemma pre_process_cases event w :
  (exists st, exec (pre_process C event) w =
     {| man := set_spa_state st (man w); env := env w; trace := trace w |})
  \/ exec (pre_process C event) w = w
  \/ (event = RUNNING_PING_RECEIVED
      /\ state_in (_spa_state (man w))
           [ERROR_PING_MISSED; ERROR_RF_FAULT; ERROR_NEEDS_ATTENTION] = true
      /\ exec (pre_process C event) w = reset_world C w).
Proof.
  destruct w as [[cid a i n d f s st sl] en tr].
  destruct event; try (left; eexists; reflexivity); try (right; left; reflexivity).
  - destruct f; [left; eexists; reflexivity | right; left; reflexivity].
  - unfold exec, pre_process. rewrite bind_run. simpl.
    destruct (state_in st _) eqn:Hin.
    + right; right. rewrite async_reset_run. auto.
    + right; left. reflexivity.
Qed.

Lemma handle_event_run event kw w :
  _handle_event C event kw w =
    call_handle_event C event kw (stamp event (exec (pre_process C event) w)).
Proof.
  unfold _handle_event.
  rewrite (exec_bind_returned _ _ _ tt) by apply pre_process_returns.
  reflexivity.
Qed.

Lemma handle_event_man event kw w :
  man (exec (_handle_event C event kw) w) =
    man (stamp event (exec (pre_process C event) w)).
Proof.
  unfold exec at 1. rewrite handle_event_run. unfold call_handle_event.
  destruct (handle_event C _ _ _ _) as [[what|] en']; reflexivity.
Qed.

Lemma handle_event_trace event kw w :
  trace (exec (_handle_event C event kw) w) =
    trace (exec (pre_process C event) w) ++ [Forwarded event kw].
Proof.
  unfold exec at 1. rewrite handle_event_run. unfold call_handle_event.
  destruct (handle_event C _ _ _ _) as [[what|] en']; reflexivity.
Qed.

Lemma forwarded_app (t1 t2 : list Action) :
  forwarded (t1 ++ t2) = forwarded t1 ++ forwarded t2.
Proof. apply omap_app. Qed.

Lemma connects_app (t1 t2 : list Action) :
  connects (t1 ++ t2) = connects t1 ++ connects t2.
Proof. apply omap_app. Qed.

Lemma reset_world_forwarded w :
  forwarded (trace (reset_world C w)) = forwarded (trace w).
Proof.
  unfold reset_world; simpl. destruct (_spa (man w)); [|reflexivity].
  rewrite forwarded_app. apply app_nil_r.
Qed.

Lemma pre_process_forwarded event w :
  forwarded (trace (exec (pre_process C event) w)) = forwarded (trace w).
Proof.
  destruct (pre_process_cases event w) as [[st ->] | [-> | (_ & _ & ->)]];
    auto using reset_world_forwarded.
Qed.

Lemma handle_event_forwarded event kw w :
  forwarded (trace (exec (_handle_event C event kw) w)) =
    forwarded (trace w) ++ [(event, kw)].
Proof.
  rewrite handle_event_trace, forwarded_app, pre_process_forwarded.
  reflexivity.
Qed.

(** C1. Every call of the dispatcher [_handle_event], whatever the event
    and its keyword payload, invokes the host's [handle_event] on exactly
    that event and payload, once; over any sequence of calls the stream the
    handler received is the sequence of events dispatched, in order,
    nothing filtered or skipped, state change or not. *)
Theorem dispatcher_forwards_every_event w :
  (forall event kw,
      let w1 := stamp event (exec (pre_process C event) w) in
      forwarded (trace (exec (_handle_event C event kw) w))
        = forwarded (trace w) ++ [(event, kw)]
      /\ env (exec (_handle_event C event kw) w)
          = (handle_event C (man w1) event kw (env w1)).2)
  /\ (forall events,
        forwarded (trace (dispatch_all C events w))
          = forwarded (trace w) ++ events).
Proof.
  split.
  - intros event kw w1. split; [apply handle_event_forwarded|].
    unfold exec at 1. rewrite handle_event_run. fold w1.
    unfold call_handle_event.
    destruct (handle_event C _ _ _ _) as [[what|] en']; reflexivity.
  - intros events. revert w.
    induction events as [|[event kw] rest IH]; intros w; simpl.
    + symmetry. apply app_nil_r.
    + rewrite IH, handle_event_forwarded, <- app_assoc. reflexivity.
Qed.

(** C8. From every state of the manager, [async_reset] returns normally
    and leaves no descriptors, no facade and no session, with the state
    [IDLE]; a session that existed was disconnected, exactly once, and when
    none existed nothing outside the manager was touched. The hints are
    kept. *)
Theorem async_reset_clears_and_idles w :
  let w' := exec (async_reset C) w in
  outcome (async_reset C) w = Returned tt
  /\ _spa_descriptors (man w') = None
  /\ _facade (man w') = None
  /\ _spa (man w') = None
  /\ _spa_state (man w') = IDLE
  /\ match _spa (man w) with
     | Some spa =>
         trace w' = trace w ++ [SpaDisconnect spa]
         /\ env w' = disconnect C spa (env w)
     | None => trace w' = trace w /\ env w' = env w
     end
  /\ _spa_address (man w') = _spa_address (man w)
  /\ _spa_identifier (man w') = _spa_identifier (man w)
  /\ _spa_name (man w') = _spa_name (man w).
Proof.
  unfold outcome, exec. rewrite async_reset_run. simpl.
  repeat split; try reflexivity.
  destruct (_spa (man w)); split; reflexivity.
Qed.

(** C10. [async_set_spa_info] stores the three hints it is given and then
    resets: whatever the manager held before, it returns normally with the
    state [IDLE] and no descriptors, facade or session. *)
Theorem async_set_spa_info_resets w (spa_address spa_identifier spa_name : option string) :
  let w' := exec (async_set_spa_info C spa_address spa_identifier spa_name) w in
  outcome (async_set_spa_info C spa_address spa_identifier spa_name) w = Returned tt
  /\ _spa_state (man w') = IDLE
  /\ _spa_descriptors (man w') = None
  /\ _facade (man w') = None
  /\ _spa (man w') = None
  /\ _spa_address (man w') = spa_address
  /\ _spa_identifier (man w') = spa_identifier
  /\ _spa_name (man w') = spa_name.
Proof.
  unfold outcome, exec, async_set_spa_info.
  run_binds. rewrite async_reset_run. simpl.
  repeat split.
Qed.

Lemma state_in_spec (st : GeckoSpaState) (l : list GeckoSpaState) :
  state_in st l = true <-> st ∈ l.
Proof. unfold state_in. apply bool_decide_eq_true. Qed.

(** C2. A [RUNNING_PING_RECEIVED] event dispatched in one of the states
    [ERROR_PING_MISSED], [ERROR_RF_FAULT], [ERROR_NEEDS_ATTENTION] resets the
    manager: afterwards the state is [IDLE] and descriptors, facade and
    session are [None]. Dispatched in any other state it leaves the state
    (and descriptors, facade and session) as they were. *)
Theorem ping_received_resets_from_error_states w kw :
  let w' := exec (_handle_event C RUNNING_PING_RECEIVED kw) w in
  (_spa_state (man w) ∈ [ERROR_PING_MISSED; ERROR_RF_FAULT; ERROR_NEEDS_ATTENTION] ->
     _spa_state (man w') = IDLE
     /\ _spa_descriptors (man w') = None
     /\ _facade (man w') = None
     /\ _spa (man w') = None)
  /\ (_spa_state (man w) ∉ [ERROR_PING_MISSED; ERROR_RF_FAULT; ERROR_NEEDS_ATTENTION] ->
       _spa_state (man w') = _spa_state (man w)
       /\ _spa_descriptors (man w') = _spa_descriptors (man w)
       /\ _facade (man w') = _facade (man w)
       /\ _spa (man w') = _spa (man w)).
Proof.
  intros w'. subst w'. rewrite handle_event_man.
  unfold exec, pre_process. rewrite bind_run. simpl.
  split; intros Hst.
  - apply state_in_spec in Hst. rewrite Hst, async_reset_run. simpl. auto.
  - destruct (state_in _ _) eqn:Hin.
    + apply state_in_spec in Hin. contradiction.
    + simpl. auto.
Qed.

(** ** Callbacks of a collaborator *)

(** What every call of the dispatcher preserves, a run of callbacks
    preserves. *)
Lemma callbacks_preserve (P : World Env -> Prop) :
  (forall event kw w, P w -> P (exec (_handle_event C event kw) w)) ->
  forall events w, P w -> P (exec (callbacks C events) w).
Proof.
  intros Hstep events.
  induction events as [|[event kw] rest IH]; intros w Hw; [exact Hw|].
  simpl. rewrite exec_bind.
  destruct (outcome _ w); auto.
Qed.

Lemma quiet_handle_event_returns event kw w :
  quiet C -> outcome (_handle_event C event kw) w = Returned tt.
Proof.
  intros Hq. unfold outcome. rewrite handle_event_run.
  unfold call_handle_event.
  specialize (Hq (man (stamp event (exec (pre_process C event) w))) event kw
                (env (stamp event (exec (pre_process C event) w)))).
  destruct (handle_event C _ _ _ _) as [r en']. simpl in Hq. subst r.
  reflexivity.
Qed.

Lemma quiet_callbacks_return events w :
  quiet C -> outcome (callbacks C events) w = Returned tt.
Proof.
  intros Hq. revert w.
  induction events as [|[event kw] rest IH]; intros w; [reflexivity|].
  simpl. rewrite outcome_bind, quiet_handle_event_returns by exact Hq.
  apply IH.
Qed.

(** The trace only grows. *)
Lemma pre_process_extends event w :
  exists ext, trace (exec (pre_process C event) w) = trace w ++ ext.
Proof.
  destruct (pre_process_cases event w) as [[st ->] | [-> | (_ & _ & ->)]];
    simpl; try (exists []; symmetry; apply app_nil_r).
  destruct (_spa (man w)) as [spa|]; [exists [SpaDisconnect spa]; reflexivity|].
  exists []; symmetry; apply app_nil_r.
Qed.

Lemma handle_event_extends event kw w :
  exists ext, trace (exec (_handle_event C event kw) w) = trace w ++ ext.
Proof.
  rewrite handle_event_trace.
  destruct (pre_process_extends event w) as [ext ->].
  eexists. rewrite <- app_assoc. reflexivity.
Qed.

Lemma callbacks_extend events w :
  exists ext, trace (exec (callbacks C events) w) = trace w ++ ext.
Proof.
  apply (callbacks_preserve (fun w' => exists ext, trace w' = trace w ++ ext)).
  - intros event kw w1 [ext1 H1].
    destruct (handle_event_extends event kw w1) as [ext2 ->].
    rewrite H1. exists (ext1 ++ ext2). rewrite app_assoc. reflexivity.
  - exists []. symmetry. apply app_nil_r.
Qed.

(** ** Discovery *)

Lemma call_discover_extends spa_address spa_identifier w :
  exists cb,
    trace (exec (call_discover C spa_address spa_identifier) w)
      = trace w ++ LocatorDiscover spa_address spa_identifier :: cb.
Proof.
  unfold exec, call_discover. rewrite bind_run.
  destruct (discover C spa_address spa_identifier (env w)) as [run en'] eqn:Hrun.
  simpl. rewrite bind_run.
  set (w1 := {| man := man w; env := en'; trace := _ |}).
  destruct (callbacks_extend (locator_events run) w1) as [cb Hcb].
  unfold exec in Hcb.
  destruct (callbacks C (locator_events run) w1) as [[[]|e] w2]; simpl in *.
  - exists cb. destruct (locator_result run); simpl; rewrite Hcb;
      unfold w1; simpl; rewrite <- app_assoc; reflexivity.
  - exists cb. rewrite Hcb. unfold w1; simpl. rewrite <- app_assoc. reflexivity.
Qed.

Lemma started_run w :
  exec (pre_process C LOCATING_STARTED) w =
    {| man := set_spa_state LOCATING_SPAS (man w); env := env w; trace := trace w |}.
Proof. reflexivity. Qed.

(** The trace of the [try] block of discovery: the started event, and
    when the handler let it pass, the locator's run after it. *)
Lemma locate_try_trace spa_address spa_identifier w :
  exists mid,
    trace (exec (locate_try C spa_address spa_identifier) w)
      = trace w ++ [Forwarded LOCATING_STARTED ∅] ++ mid
    /\ (mid = [] \/ exists cb, mid = LocatorDiscover spa_address spa_identifier :: cb)
    /\ (outcome (_handle_event C LOCATING_STARTED ∅) w = Returned tt ->
        exists cb, mid = LocatorDiscover spa_address spa_identifier :: cb).
Proof.
  unfold locate_try. rewrite exec_bind.
  pose proof (handle_event_trace LOCATING_STARTED ∅ w) as Hs.
  rewrite started_run in Hs. simpl in Hs.
  destruct (outcome (_handle_event C LOCATING_STARTED ∅) w) as [[]|e].
  - rewrite exec_bind.
    destruct (call_discover_extends spa_address spa_identifier
                (exec (_handle_event C LOCATING_STARTED ∅) w)) as [cb Hcb].
    exists (LocatorDiscover spa_address spa_identifier :: cb).
    split; [|split; eauto].
    destruct (outcome (call_discover C _ _) _); simpl; rewrite Hcb, Hs;
      rewrite <- app_assoc; reflexivity.
  - exists []. rewrite Hs. split; [reflexivity|]. split; [auto|discriminate].
Qed.

Lemma locate_finally_run w :
  locate_finally C w =
    _handle_event C LOCATING_FINISHED
      {[ "spa_descriptors" := py_opt_descriptors (_spa_descriptors (man w)) ]} w.
Proof. reflexivity. Qed.

Lemma finished_man kw w :
  man (exec (_handle_event C LOCATING_FINISHED kw) w) =
    man (stamp LOCATING_FINISHED
           {| man := set_spa_state IDLE (man w); env := env w; trace := trace w |}).
Proof. rewrite handle_event_man. reflexivity. Qed.

Lemma async_locate_spas_exec spa_address spa_identifier w :
  exec (async_locate_spas C spa_address spa_identifier) w =
    exec (locate_finally C) (exec (locate_try C spa_address spa_identifier) w).
Proof.
  unfold async_locate_spas. rewrite exec_bind, try_finally_exec.
  destruct (outcome (try_finally _ _) w); reflexivity.
Qed.

Lemma async_locate_spas_outcome spa_address spa_identifier w :
  outcome (async_locate_spas C spa_address spa_identifier) w =
    match outcome (locate_finally C) (exec (locate_try C spa_address spa_identifier) w),
          outcome (locate_try C spa_address spa_identifier) w with
    | Returned _, Returned _ =>
        Returned (_spa_descriptors
                    (man (exec (async_locate_spas C spa_address spa_identifier) w)))
    | Returned _, Raised e => Raised e
    | Raised e, _ => Raised e
    end.
Proof.
  rewrite async_locate_spas_exec.
  unfold async_locate_spas. rewrite outcome_bind, try_finally_outcome, try_finally_exec.
  destruct (outcome (locate_finally C) _); [|reflexivity].
  destruct (outcome (locate_try C _ _) w); reflexivity.
Qed.

(** How a run of the locator ends, seen from the manager. *)
Lemma call_discover_outcome spa_address spa_identifier w :
  let run := (discover C spa_address spa_identifier (env w)).1 in
  (forall spas,
      outcome (call_discover C spa_address spa_identifier) w = Returned spas ->
      locator_result run = inr spas)
  /\ (forall what,
        locator_result run = inl what ->
        exists e,
          outcome (call_discover C spa_address spa_identifier) w = Raised e
          /\ (quiet C -> e = Exception what)).
Proof.
  unfold outcome, call_discover. rewrite bind_run.
  destruct (discover C spa_address spa_identifier (env w)) as [run en'].
  simpl. rewrite bind_run.
  set (w1 := {| man := man w; env := en'; trace := _ |}).
  pose proof (quiet_callbacks_return (locator_events run) w1) as Hq.
  unfold outcome in Hq.
  destruct (callbacks C (locator_events run) w1) as [[[]|e] w2]; simpl in *.
  - split.
    + intros spas. destruct (locator_result run); simpl; congruence.
    + intros what ->. simpl. eauto.
  - split; [discriminate|].
    intros what _. exists e. split; [reflexivity|].
    intros Hquiet. specialize (Hq Hquiet). discriminate.
Qed.

Lemma locate_try_returned spa_address spa_identifier w :
  outcome (locate_try C spa_address spa_identifier) w = Returned tt ->
  exists spas,
    _spa_descriptors (man (exec (locate_try C spa_address spa_identifier) w))
      = Some spas
    /\ locator_result
         (discover C spa_address spa_identifier
            (env (exec (_handle_event C LOCATING_STARTED ∅) w))).1 = inr spas.
Proof.
  unfold locate_try. rewrite outcome_bind, exec_bind.
  destruct (outcome (_handle_event C LOCATING_STARTED ∅) w) as [[]|e];
    [|discriminate].
  rewrite outcome_bind, exec_bind.
  set (ws := exec (_handle_event C LOCATING_STARTED ∅) w).
  destruct (call_discover_outcome spa_address spa_identifier ws) as [Hok _].
  destruct (outcome (call_discover C _ _) ws) as [spas|e]; [|discriminate].
  intros _. exists spas. split; [reflexivity|]. apply Hok. reflexivity.
Qed.

Lemma locate_try_raised spa_address spa_identifier w what :
  outcome (_handle_event C LOCATING_STARTED ∅) w = Returned tt ->
  locator_result
    (discover C spa_address spa_identifier
       (env (exec (_handle_event C LOCATING_STARTED ∅) w))).1 = inl what ->
  exists e,
    outcome (locate_try C spa_address spa_identifier) w = Raised e
    /\ (quiet C -> e = Exception what).
Proof.
  intros Hs Hrun. unfold locate_try. rewrite outcome_bind, Hs, outcome_bind.
  set (ws := exec (_handle_event C LOCATING_STARTED ∅) w) in *.
  destruct (call_discover_outcome spa_address spa_identifier ws) as [_ Hbad].
  destruct (Hbad what Hrun) as (e & -> & He). eauto.
Qed.

(** C3. [async_locate_spas] dispatches [LOCATING_STARTED] before anything
    else, so before the Locator runs, and [LOCATING_FINISHED] last, on every
    path: whether the Locator returned or raised, the trace the call leaves
    ends with the finished event, carrying the descriptors the manager then
    holds. Once the finished event is processed the state is [IDLE],
    whatever was found. A call that returns gives the list the Locator
    left; when the Locator raises the call raises (the Locator's own
    exception when the handler raises nothing), after the finished
    event. *)
Theorem async_locate_spas_brackets_discovery w (spa_address spa_identifier : option string) :
  let w' := exec (async_locate_spas C spa_address spa_identifier) w in
  let ws := exec (_handle_event C LOCATING_STARTED ∅) w in
  let run := (discover C spa_address spa_identifier (env ws)).1 in
  let finished :=
    Forwarded LOCATING_FINISHED
      {[ "spa_descriptors" := py_opt_descriptors (_spa_descriptors (man w')) ]} in
  (exists mid,
      trace w' = trace w ++ [Forwarded LOCATING_STARTED ∅] ++ mid ++ [finished]
      /\ (mid = [] \/ exists cb, mid = LocatorDiscover spa_address spa_identifier :: cb)
      /\ (outcome (_handle_event C LOCATING_STARTED ∅) w = Returned tt ->
          exists cb, mid = LocatorDiscover spa_address spa_identifier :: cb))
  /\ _spa_state (man w') = IDLE
  /\ (forall o,
        outcome (async_locate_spas C spa_address spa_identifier) w = Returned o ->
        o = _spa_descriptors (man w')
        /\ exists spas, o = Some spas /\ locator_result run = inr spas)
  /\ (forall what,
        outcome (_handle_event C LOCATING_STARTED ∅) w = Returned tt ->
        locator_result run = inl what ->
        exists e,
          outcome (async_locate_spas C spa_address spa_identifier) w = Raised e
          /\ (quiet C -> e = Exception what)).
Proof.
  intros w' ws run finished.
  assert (Hman : man w' =
    man (stamp LOCATING_FINISHED
           {| man := set_spa_state IDLE
                       (man (exec (locate_try C spa_address spa_identifier) w));
              env := env (exec (locate_try C spa_address spa_identifier) w);
              trace := trace (exec (locate_try C spa_address spa_identifier) w) |})).
  { unfold w'. rewrite async_locate_spas_exec. unfold exec at 1.
    rewrite locate_finally_run. apply finished_man. }
  split; [|split; [|split]].
  - destruct (locate_try_trace spa_address spa_identifier w) as (mid & Ht & Hmid).
    exists mid. split; [|exact Hmid].
    unfold finished. rewrite Hman. simpl.
    unfold w'. rewrite async_locate_spas_exec. unfold exec at 1.
    rewrite locate_finally_run.
    fold (exec (_handle_event C LOCATING_FINISHED
      {["spa_descriptors" := py_opt_descriptors
          (_spa_descriptors (man (exec (locate_try C spa_address spa_identifier) w)))]})
      (exec (locate_try C spa_address spa_identifier) w)).
    rewrite handle_event_trace. simpl. rewrite Ht, <- !app_assoc. reflexivity.
  - rewrite Hman. reflexivity.
  - intros o Ho. rewrite async_locate_spas_outcome in Ho.
    destruct (outcome (locate_finally C) _); [|discriminate].
    destruct (outcome (locate_try C _ _) w) as [[]|e] eqn:Htry; [|discriminate].
    injection Ho as <-. split; [reflexivity|].
    destruct (locate_try_returned _ _ _ Htry) as (spas & Hd & Hr).
    exists spas. split; [|exact Hr].
    fold w'. rewrite Hman. simpl. exact Hd.
  - intros what Hs Hrun.
    destruct (locate_try_raised _ _ _ _ Hs Hrun) as (e & He & Hq).
    rewrite async_locate_spas_outcome, He.
    destruct (outcome (locate_finally C) _) as [[]|e'] eqn:Hfin.
    + exists e. auto.
    + exists e'. split; [reflexivity|]. intros Hquiet.
      unfold outcome in Hfin. rewrite locate_finally_run in Hfin.
      pose proof (quiet_handle_event_returns LOCATING_FINISHED
        {["spa_descriptors" := py_opt_descriptors
            (_spa_descriptors (man (exec (locate_try C spa_address spa_identifier) w)))]}
        (exec (locate_try C spa_address spa_identifier) w) Hquiet) as Hret.
      unfold outcome in Hret. congruence.
Qed.

(** ** Connecting to a descriptor *)

(** Only a failing [assert] of the manager raises [AssertionError]. *)
Lemma handle_event_no_assert event kw w :
  outcome (_handle_event C event kw) w <> Raised AssertionError.
Proof.
  unfold outcome. rewrite handle_event_run. unfold call_handle_event.
  destruct (handle_event C _ _ _ _) as [[what|] en']; discriminate.
Qed.

Lemma callbacks_no_assert events w :
  outcome (callbacks C events) w <> Raised AssertionError.
Proof.
  revert w. induction events as [|[event kw] rest IH]; intros w; [discriminate|].
  simpl. rewrite outcome_bind.
  pose proof (handle_event_no_assert event kw w) as H.
  destruct (outcome (_handle_event C event kw) w) as [[]|e]; [apply IH|exact H].
Qed.

(** While no facade exists, no event makes the state [CONNECTED]. *)
Lemma pre_process_without_facade event w :
  _facade (man w) = None -> _spa_state (man w) <> CONNECTED ->
  _facade (man (exec (pre_process C event) w)) = None
  /\ _spa_state (man (exec (pre_process C event) w)) <> CONNECTED.
Proof.
  destruct w as [[cid a i n d f s st sl] en tr]. simpl. intros -> Hst.
  destruct event; simpl; try (split; [reflexivity | first [exact Hst | discriminate]]).
  unfold exec, pre_process. rewrite bind_run. simpl.
  destruct (state_in st _).
  - rewrite async_reset_run. simpl. split; [reflexivity|discriminate].
  - simpl. auto.
Qed.

Lemma handle_event_without_facade event kw w :
  _facade (man w) = None /\ _spa_state (man w) <> CONNECTED ->
  _facade (man (exec (_handle_event C event kw) w)) = None
  /\ _spa_state (man (exec (_handle_event C event kw) w)) <> CONNECTED.
Proof.
  intros [Hf Hst]. rewrite handle_event_man. simpl.
  apply pre_process_without_facade; assumption.
Qed.

(** Only [CONNECTION_SPA_COMPLETE] makes the state [SPA_READY]. *)
Lemma pre_process_spa_ready event w :
  _spa_state (man (exec (pre_process C event) w)) = SPA_READY ->
  event = CONNECTION_SPA_COMPLETE \/ _spa_state (man w) = SPA_READY.
Proof.
  destruct w as [[cid a i n d f s st sl] en tr].
  destruct event; simpl; try discriminate; auto.
  - destruct f; simpl; [discriminate|auto].
  - unfold exec, pre_process. rewrite bind_run. simpl.
    destruct (state_in st _).
    + rewrite async_reset_run. simpl. discriminate.
    + simpl. auto.
Qed.

Lemma handle_event_ready_by_completion t0 event kw w :
  ready_by_completion t0 w ->
  ready_by_completion t0 (exec (_handle_event C event kw) w).
Proof.
  intros (ext & Ht & Hready). unfold ready_by_completion.
  rewrite handle_event_trace, handle_event_man. simpl.
  destruct (pre_process_extends event w) as [ext' ->].
  exists (ext ++ ext' ++ [Forwarded event kw]). split.
  - rewrite Ht, <- !app_assoc. reflexivity.
  - intros Hst. apply pre_process_spa_ready in Hst as [-> | Hst].
    + exists kw. rewrite !elem_of_app, list_elem_of_singleton. auto.
    + destruct (Hready Hst) as [kw' Hin]. exists kw'.
      rewrite elem_of_app. auto.
Qed.

Lemma callbacks_ready_by_completion t0 events w :
  ready_by_completion t0 w ->
  ready_by_completion t0 (exec (callbacks C events) w).
Proof.
  apply (callbacks_preserve (ready_by_completion t0)).
  intros event kw w1. apply handle_event_ready_by_completion.
Qed.

Lemma callbacks_without_facade events w :
  _facade (man w) = None /\ _spa_state (man w) <> CONNECTED ->
  _facade (man (exec (callbacks C events) w)) = None
  /\ _spa_state (man (exec (callbacks C events) w)) <> CONNECTED.
Proof.
  apply (callbacks_preserve
           (fun w => _facade (man w) = None /\ _spa_state (man w) <> CONNECTED)).
  intros event kw w1. apply handle_event_without_facade.
Qed.

(** The world in which the session's handshake starts: the started event
    has been dispatched and returned, the session is stored, and
    [connect()] has been entered. *)
Lemma call_connect_exec spa w :
  exec (call_connect C spa) w =
    exec (callbacks C (session_events (connect C spa (env w)).1))
      {| man := man w; env := (connect C spa (env w)).2;
         trace := trace w ++ [SpaConnect spa] |}.
Proof.
  unfold exec at 1. unfold call_connect. rewrite bind_run.
  destruct (connect C spa (env w)) as [run en']. simpl.
  rewrite bind_run. unfold exec.
  destruct (callbacks C (session_events run) _) as [[[]|e] w2]; simpl;
    [destruct (session_result run)|]; reflexivity.
Qed.

Lemma call_connect_no_assert spa w :
  outcome (call_connect C spa) w <> Raised AssertionError.
Proof.
  unfold outcome, call_connect. rewrite bind_run.
  destruct (connect C spa (env w)) as [run en']. simpl.
  rewrite bind_run.
  set (w1 := {| man := man w; env := en'; trace := _ |}).
  pose proof (callbacks_no_assert (session_events run) w1) as H.
  unfold outcome in H.
  destruct (callbacks C (session_events run) w1) as [[[]|e] w2]; simpl in *;
    [destruct (session_result run); discriminate | exact H].
Qed.

Lemma connection_started_run w :
  exec (pre_process C CONNECTION_STARTED) w =
    {| man := set_spa_state CONNECTING (man w); env := env w; trace := trace w |}.
Proof. reflexivity. Qed.

(** The handshake phase of a connection that starts without a facade:
    it ends without a facade and not [CONNECTED]; its trace begins with the
    started event; and if it ends in [SPA_READY], the completion event was
    forwarded after the started event. *)
Lemma connect_handshake_facts spa_descriptor w :
  _facade (man w) = None ->
  let w1 := exec (connect_handshake C spa_descriptor) w in
  _facade (man w1) = None
  /\ _spa_state (man w1) <> CONNECTED
  /\ ready_by_completion (trace w ++ [Forwarded CONNECTION_STARTED ∅]) w1.
Proof.
  intros Hf w1. subst w1. unfold connect_handshake. rewrite exec_bind.
  set (ws := exec (_handle_event C CONNECTION_STARTED ∅) w).
  assert (Hws : _facade (man ws) = None /\ _spa_state (man ws) = CONNECTING
                /\ trace ws = trace w ++ [Forwarded CONNECTION_STARTED ∅]).
  { unfold ws. rewrite handle_event_man, handle_event_trace, connection_started_run.
    simpl. auto. }
  destruct Hws as (Hfs & Hss & Hts).
  assert (Hready : ready_by_completion (trace w ++ [Forwarded CONNECTION_STARTED ∅]) ws).
  { exists []. rewrite app_nil_r. split; [exact Hts|]. rewrite Hss. discriminate. }
  destruct (outcome (_handle_event C CONNECTION_STARTED ∅) w) as [[]|e].
  - rewrite exec_bind. simpl. rewrite exec_bind. simpl.
    rewrite call_connect_exec. simpl.
    change (exec self ws) with ws.
    set (w2 := {| man := set_spa _ (man ws); env := _; trace := _ |}).
    assert (H2 : (_facade (man w2) = None /\ _spa_state (man w2) <> CONNECTED)
                 /\ ready_by_completion (trace w ++ [Forwarded CONNECTION_STARTED ∅]) w2).
    { unfold w2; simpl. rewrite Hfs, Hss. split; [split; [reflexivity|discriminate]|].
      eexists [SpaConnect _]. simpl. rewrite Hts. split; [reflexivity|].
      rewrite Hss. discriminate. }
    destruct H2 as [H2 H2'].
    destruct (callbacks_without_facade
                (session_events (connect C
                   {| spa_client_id := _client_id (man ws);
                      spa_descriptor := spa_descriptor |} (env ws)).1) w2 H2) as [? ?].
    repeat split; try assumption.
    apply callbacks_ready_by_completion. exact H2'.
  - rewrite Hfs, Hss. repeat split; [discriminate | exact Hready].
Qed.

Lemma connect_try_exec spa_descriptor w :
  exec (connect_try C spa_descriptor) w =
    let w1 := exec (connect_handshake C spa_descriptor) w in
    match outcome (connect_handshake C spa_descriptor) w with
    | Returned _ =>
        if decide (_spa_state (man w1) = SPA_READY)
        then {| man := set_facade (Some {| facade_spa := _spa (man w1) |}) (man w1);
                env := env w1; trace := trace w1 |}
        else w1
    | Raised _ => w1
    end.
Proof.
  unfold connect_try. rewrite exec_bind.
  destruct (outcome (connect_handshake C spa_descriptor) w) as [[]|e];
    [|reflexivity].
  rewrite exec_bind. simpl.
  change (exec self (exec (connect_handshake C spa_descriptor) w))
    with (exec (connect_handshake C spa_descriptor) w).
  destruct (decide _); reflexivity.
Qed.

Lemma bind_no_assert {A B : Type} (m : M A) (f : A -> M B) w :
  outcome m w <> Raised AssertionError ->
  (forall a w1, outcome (f a) w1 <> Raised AssertionError) ->
  outcome (m ≫= f) w <> Raised AssertionError.
Proof.
  intros Hm Hf. rewrite outcome_bind.
  destruct (outcome m w) as [a|e]; [apply Hf|].
  intros [= ->]. apply Hm. reflexivity.
Qed.

Lemma connect_try_no_assert spa_descriptor w :
  outcome (connect_try C spa_descriptor) w <> Raised AssertionError.
Proof.
  unfold connect_try, connect_handshake.
  apply bind_no_assert.
  - apply bind_no_assert; [apply handle_event_no_assert|].
    intros _ w1. apply bind_no_assert; [discriminate|].
    intros this w2. apply bind_no_assert; [discriminate|].
    intros _ w3. apply call_connect_no_assert.
  - intros _ w1. apply bind_no_assert; [discriminate|].
    intros this w2. destruct (decide _); discriminate.
Qed.

Lemma connect_finally_run w :
  connect_finally C w =
    _handle_event C CONNECTION_FINISHED
      {[ "facade" := py_opt_facade (_facade (man w)) ]} w.
Proof. reflexivity. Qed.

Lemma connection_finished_man kw w :
  man (exec (_handle_event C CONNECTION_FINISHED kw) w) =
    man (stamp CONNECTION_FINISHED
           {| man := if _facade (man w) is Some _
                     then set_spa_state CONNECTED (man w) else man w;
              env := env w; trace := trace w |}).
Proof.
  rewrite handle_event_man.
  destruct w as [[cid a i n d f s st sl] en tr]. destruct f; reflexivity.
Qed.

Lemma connection_finished_trace kw w :
  trace (exec (_handle_event C CONNECTION_FINISHED kw) w) =
    trace w ++ [Forwarded CONNECTION_FINISHED kw].
Proof.
  rewrite handle_event_trace.
  destruct w as [[cid a i n d f s st sl] en tr]. destruct f; reflexivity.
Qed.

(** With a facade in place the assertion fails and nothing else happens. *)
Lemma async_connect_to_spa_refused spa_descriptor w :
  is_Some (_facade (man w)) ->
  async_connect_to_spa C spa_descriptor w = (Raised AssertionError, w).
Proof.
  intros [f Hf]. unfold async_connect_to_spa. rewrite bind_run. simpl.
  rewrite Hf. reflexivity.
Qed.

(** Without one the assertion passes and the guarded block runs. *)
Lemma async_connect_to_spa_proceeds spa_descriptor w :
  _facade (man w) = None ->
  async_connect_to_spa C spa_descriptor w =
    (try_finally (connect_try C spa_descriptor) (connect_finally C) ;;
     this ← self; mret (_facade this)) w.
Proof.
  intros Hf. unfold async_connect_to_spa. rewrite bind_run. simpl.
  rewrite Hf. reflexivity.
Qed.

Lemma async_connect_to_spa_exec spa_descriptor w :
  _facade (man w) = None ->
  exec (async_connect_to_spa C spa_descriptor) w =
    exec (connect_finally C) (exec (connect_try C spa_descriptor) w).
Proof.
  intros Hf. unfold exec at 1. rewrite async_connect_to_spa_proceeds by exact Hf.
  fold (exec (try_finally (connect_try C spa_descriptor) (connect_finally C) ;;
              this ← self; mret (_facade this)) w).
  rewrite exec_bind, try_finally_exec.
  destruct (outcome (try_finally _ _) w); reflexivity.
Qed.

(** C4. Dispatching [CONNECTION_FINISHED] makes the state [CONNECTED] when
    a facade exists at that moment and otherwise leaves the state alone.
    [async_connect_to_spa], entered without a facade, builds the facade
    exactly when the handshake returned with the state [SPA_READY]; so when
    its [CONNECTION_FINISHED] carries a facade, [CONNECTION_SPA_COMPLETE]
    was forwarded between the started and the finished event and the state
    ends [CONNECTED], and when it carries none the state does not end
    [CONNECTED]. *)
Theorem connection_finished_connected_iff_facade w kw
    (spa_descriptor : GeckoAsyncSpaDescriptor) :
  let wf := exec (_handle_event C CONNECTION_FINISHED kw) w in
  let w1 := exec (connect_handshake C spa_descriptor) w in
  let w' := exec (async_connect_to_spa C spa_descriptor) w in
  ((is_Some (_facade (man w)) -> _spa_state (man wf) = CONNECTED)
   /\ (_facade (man w) = None -> _spa_state (man wf) = _spa_state (man w))
   /\ (_facade (man w) = None -> _spa_state (man w) <> CONNECTED ->
       _spa_state (man wf) <> CONNECTED)
   /\ _facade (man wf) = _facade (man w))
  /\ (_facade (man w) = None ->
      (is_Some (_facade (man w')) <->
         outcome (connect_handshake C spa_descriptor) w = Returned tt
         /\ _spa_state (man w1) = SPA_READY)
      /\ (exists ext,
            trace w' =
              trace w ++ [Forwarded CONNECTION_STARTED ∅] ++ ext
                ++ [Forwarded CONNECTION_FINISHED
                      {[ "facade" := py_opt_facade (_facade (man w')) ]}]
            /\ (is_Some (_facade (man w')) ->
                exists kw', Forwarded CONNECTION_SPA_COMPLETE kw' ∈ ext))
      /\ (is_Some (_facade (man w')) -> _spa_state (man w') = CONNECTED)
      /\ (_facade (man w') = None -> _spa_state (man w') <> CONNECTED)).
Proof.
  intros wf w1 w'. split.
  - unfold wf. rewrite connection_finished_man. simpl.
    destruct (_facade (man w)) as [f|] eqn:Hf; simpl; rewrite ?Hf.
    + repeat split; intros; discriminate.
    + repeat split; [intros [f Hf']; discriminate | auto].
  - intros Hf.
    destruct (connect_handshake_facts spa_descriptor w Hf)
      as (Hf1 & Hst1 & (ext & Ht1 & Hready)).
    fold w1 in Hf1, Hst1, Ht1, Hready.
    assert (Hw' : w' = exec (connect_finally C) (exec (connect_try C spa_descriptor) w))
      by (apply async_connect_to_spa_exec; exact Hf).
    rewrite connect_try_exec in Hw'. fold w1 in Hw'. simpl in Hw'.
    unfold exec at 1 in Hw'. rewrite connect_finally_run in Hw'.
    destruct (outcome (connect_handshake C spa_descriptor) w) as [[]|e] eqn:Hout.
    + destruct (decide (_spa_state (man w1) = SPA_READY)) as [Hrdy|Hnot].
      * match type of Hw' with
        | _ = (_handle_event C _ ?p ?w2).2 =>
            pose proof (connection_finished_man p w2) as Hm;
            pose proof (connection_finished_trace p w2) as Htr
        end.
        unfold exec in Hm, Htr. rewrite <- Hw' in Hm, Htr. simpl in Hm, Htr.
        rewrite Hm. simpl.
        split; [split; [auto | intros _; eexists; reflexivity]|].
        split; [|split; [reflexivity | discriminate]].
        exists ext. rewrite Htr, Ht1, <- !app_assoc. split; [reflexivity|].
        intros _. apply Hready. exact Hrdy.
      * match type of Hw' with
        | _ = (_handle_event C _ ?p ?w2).2 =>
            pose proof (connection_finished_man p w2) as Hm;
            pose proof (connection_finished_trace p w2) as Htr
        end.
        unfold exec in Hm, Htr. rewrite <- Hw' in Hm, Htr.
        rewrite Hf1 in Hm, Htr. simpl in Hm, Htr.
        rewrite Hm. simpl. rewrite Hf1.
        split; [split; [intros [f Hx]; discriminate | intros [_ Hx]; contradiction]|].
        split; [|split; [intros [f Hx]; discriminate | intros _; exact Hst1]].
        exists ext. rewrite Htr, Ht1, <- !app_assoc. split; [reflexivity|].
        intros [f Hx]; discriminate.
    + match type of Hw' with
      | _ = (_handle_event C _ ?p ?w2).2 =>
          pose proof (connection_finished_man p w2) as Hm;
          pose proof (connection_finished_trace p w2) as Htr
      end.
      unfold exec in Hm, Htr. rewrite <- Hw' in Hm, Htr.
      rewrite Hf1 in Hm, Htr. simpl in Hm, Htr.
      rewrite Hm. simpl. rewrite Hf1.
      split; [split; [intros [f Hx]; discriminate | intros [Hx _]; discriminate]|].
      split; [|split; [intros [f Hx]; discriminate | intros _; exact Hst1]].
      exists ext. rewrite Htr, Ht1, <- !app_assoc. split; [reflexivity|].
      intros [f Hx]; discriminate.
Qed.

(** The trace of a connection that starts without a facade begins with
    the started event. *)
Lemma async_connect_to_spa_starts spa_descriptor w :
  _facade (man w) = None ->
  exists ext,
    trace (exec (async_connect_to_spa C spa_descriptor) w)
      = trace w ++ Forwarded CONNECTION_STARTED ∅ :: ext.
Proof.
  intros Hf. rewrite async_connect_to_spa_exec by exact Hf.
  unfold exec at 1. rewrite connect_finally_run.
  match goal with
  | |- context [(_handle_event C _ ?p ?w2).2] =>
      pose proof (connection_finished_trace p w2) as Htr
  end.
  unfold exec at 1 in Htr. rewrite Htr. clear Htr.
  destruct (connect_handshake_facts spa_descriptor w Hf) as (_ & _ & (ext & Ht & _)).
  assert (Htry : trace (exec (connect_try C spa_descriptor) w)
                 = trace (exec (connect_handshake C spa_descriptor) w)).
  { rewrite connect_try_exec. simpl.
    destruct (outcome (connect_handshake C spa_descriptor) w); [|reflexivity].
    destruct (decide _); reflexivity. }
  rewrite Htry, Ht. eexists. rewrite <- !app_assoc. reflexivity.
Qed.

(** C9. [async_connect_to_spa] asserts that no facade exists. Called with
    a facade in place it raises [AssertionError] at once: no event is
    dispatched, no session is made, and the manager is left exactly as it
    was, in no error state of the lifecycle. Called without one, the
    assertion passes: the started event is dispatched and the call never
    ends in [AssertionError]. *)
Theorem async_connect_to_spa_asserts_no_facade w
    (spa_descriptor : GeckoAsyncSpaDescriptor) :
  (is_Some (_facade (man w)) ->
     async_connect_to_spa C spa_descriptor w = (Raised AssertionError, w))
  /\ (_facade (man w) = None ->
      outcome (async_connect_to_spa C spa_descriptor) w <> Raised AssertionError
      /\ exists ext,
           trace (exec (async_connect_to_spa C spa_descriptor) w)
             = trace w ++ Forwarded CONNECTION_STARTED ∅ :: ext).
Proof.
  split; [apply async_connect_to_spa_refused|].
  intros Hf. split; [|apply async_connect_to_spa_starts; exact Hf].
  unfold outcome. rewrite async_connect_to_spa_proceeds by exact Hf.
  apply bind_no_assert.
  - rewrite try_finally_outcome.
    pose proof (handle_event_no_assert CONNECTION_FINISHED
      {[ "facade" := py_opt_facade
           (_facade (man (exec (connect_try C spa_descriptor) w))) ]}
      (exec (connect_try C spa_descriptor) w)) as Hfin.
    unfold outcome at 1. rewrite connect_finally_run.
    fold (outcome (_handle_event C CONNECTION_FINISHED
      {[ "facade" := py_opt_facade
           (_facade (man (exec (connect_try C spa_descriptor) w))) ]})
      (exec (connect_try C spa_descriptor) w)).
    destruct (outcome (_handle_event C CONNECTION_FINISHED _) _) as [[]|e].
    + apply connect_try_no_assert.
    + intros [= ->]. apply Hfin. reflexivity.
  - intros _ w1. discriminate.
Qed.

(** ** Connecting by identifier *)

(** The dispatcher opens no session, so neither does discovery. *)
Lemma handle_event_connects event kw w :
  connects (trace (exec (_handle_event C event kw) w)) = connects (trace w).
Proof.
  rewrite handle_event_trace, connects_app. simpl. rewrite app_nil_r.
  destruct (pre_process_cases event w) as [[st ->] | [-> | (_ & _ & ->)]];
    try reflexivity.
  unfold reset_world; simpl. destruct (_spa (man w)); [|reflexivity].
  rewrite connects_app. apply app_nil_r.
Qed.

Lemma callbacks_connects events w :
  connects (trace (exec (callbacks C events) w)) = connects (trace w).
Proof.
  apply (callbacks_preserve (fun w' => connects (trace w') = connects (trace w)));
    [|reflexivity].
  intros event kw w1 <-. apply handle_event_connects.
Qed.

Lemma call_discover_connects spa_address spa_identifier w :
  connects (trace (exec (call_discover C spa_address spa_identifier) w))
    = connects (trace w).
Proof.
  unfold exec at 1. unfold call_discover. rewrite bind_run.
  destruct (discover C spa_address spa_identifier (env w)) as [run en'].
  simpl. rewrite bind_run.
  set (w1 := {| man := man w; env := en'; trace := _ |}).
  pose proof (callbacks_connects (locator_events run) w1) as Hcb.
  unfold exec in Hcb.
  assert (H1 : connects (trace w1) = connects (trace w)).
  { unfold w1; simpl. rewrite connects_app. apply app_nil_r. }
  destruct (callbacks C (locator_events run) w1) as [[[]|e] w2]; simpl in *;
    [destruct (locator_result run); simpl|]; congruence.
Qed.

Lemma async_locate_spas_connects spa_address spa_identifier w :
  connects (trace (exec (async_locate_spas C spa_address spa_identifier) w))
    = connects (trace w).
Proof.
  rewrite async_locate_spas_exec. unfold exec at 1. rewrite locate_finally_run.
  match goal with
  | |- context [(_handle_event C _ ?p ?w2).2] =>
      pose proof (handle_event_connects LOCATING_FINISHED p w2) as Hfin
  end.
  unfold exec at 1 in Hfin. rewrite Hfin. clear Hfin.
  unfold locate_try. rewrite exec_bind.
  pose proof (handle_event_connects LOCATING_STARTED ∅ w) as Hs.
  destruct (outcome (_handle_event C LOCATING_STARTED ∅) w) as [[]|e]; [|exact Hs].
  rewrite exec_bind.
  pose proof (call_discover_connects spa_address spa_identifier
                (exec (_handle_event C LOCATING_STARTED ∅) w)) as Hd.
  destruct (outcome (call_discover C _ _) _); simpl; congruence.
Qed.

(** A discovery that returns, returns a list. *)
Lemma async_locate_spas_returned spa_address spa_identifier w o :
  outcome (async_locate_spas C spa_address spa_identifier) w = Returned o ->
  exists spas, o = Some spas.
Proof.
  rewrite async_locate_spas_outcome.
  destruct (outcome (locate_finally C) _); [|discriminate].
  destruct (outcome (locate_try C _ _) w) as [[]|e] eqn:Htry; [|discriminate].
  intros [= <-].
  destruct (locate_try_returned _ _ _ Htry) as (spas & Hd & _).
  exists spas.
  rewrite async_locate_spas_exec. unfold exec at 1.
  rewrite locate_finally_run.
  match goal with
  | |- context [(_handle_event C _ ?p ?w2).2] =>
      pose proof (finished_man p w2) as Hm
  end.
  unfold exec at 1 in Hm. rewrite Hm. simpl. exact Hd.
Qed.

(** Every session a connection opens is bound to the descriptor it was
    given. *)
Lemma async_connect_to_spa_connects spa_descriptor w :
  forall spa,
    spa ∈ connects (trace (exec (async_connect_to_spa C spa_descriptor) w)) ->
    spa ∈ connects (trace w)
    \/ spa = {| spa_client_id := _client_id (man w);
                spa_descriptor := spa_descriptor |}.
Proof.
  intros spa.
  destruct (_facade (man w)) as [f|] eqn:Hf.
  { unfold exec. rewrite async_connect_to_spa_refused by (rewrite Hf; eauto).
    auto. }
  rewrite async_connect_to_spa_exec by exact Hf.
  unfold exec at 1. rewrite connect_finally_run.
  match goal with
  | |- context [(_handle_event C _ ?p ?w2).2] =>
      pose proof (handle_event_connects CONNECTION_FINISHED p w2) as Hfin
  end.
  unfold exec at 1 in Hfin. rewrite Hfin. clear Hfin.
  assert (Htry : trace (exec (connect_try C spa_descriptor) w)
                 = trace (exec (connect_handshake C spa_descriptor) w)).
  { rewrite connect_try_exec. simpl.
    destruct (outcome (connect_handshake C spa_descriptor) w); [|reflexivity].
    destruct (decide _); reflexivity. }
  rewrite Htry. unfold connect_handshake. rewrite exec_bind.
  pose proof (handle_event_connects CONNECTION_STARTED ∅ w) as Hs.
  pose proof (handle_event_man CONNECTION_STARTED ∅ w) as Hm.
  set (ws := exec (_handle_event C CONNECTION_STARTED ∅) w) in *.
  destruct (outcome (_handle_event C CONNECTION_STARTED ∅) w) as [[]|e];
    [|rewrite Hs; auto].
  rewrite exec_bind. simpl. rewrite exec_bind. simpl.
  rewrite call_connect_exec. change (exec self ws) with ws.
  rewrite callbacks_connects. simpl.
  rewrite connects_app, Hs. simpl.
  rewrite elem_of_app, list_elem_of_singleton.
  rewrite Hm. simpl. tauto.
Qed.

Lemma async_connect_run (spa_identifier : string) (spa_address : option string) w :
  async_connect C spa_identifier spa_address w =
    let w1 := exec (async_locate_spas C spa_address (Some spa_identifier)) w in
    match outcome (async_locate_spas C spa_address (Some spa_identifier)) w with
    | Raised e => (Raised e, w1)
    | Returned None => (Raised AssertionError, w1)
    | Returned (Some []) =>
        let not_found :=
          _handle_event C SPA_NOT_FOUND
            {[ "spa_address" := py_opt_str spa_address;
               "spa_identifier" := PyStr spa_identifier ]} in
        (match outcome not_found w1 with
         | Returned _ => Returned None
         | Raised e => Raised e
         end, exec not_found w1)
    | Returned (Some (first :: _)) => async_connect_to_spa C first w1
    end.
Proof.
  unfold async_connect, outcome, exec. rewrite bind_run.
  destruct (async_locate_spas C spa_address (Some spa_identifier) w)
    as [[[[|first rest]|]|e] w1]; try reflexivity.
  exact (bind_then_ret (_handle_event C SPA_NOT_FOUND _) None w1).
Qed.

Lemma not_found_man kw w :
  man (exec (_handle_event C SPA_NOT_FOUND kw) w) =
    man (stamp SPA_NOT_FOUND
           {| man := set_spa_state ERROR_SPA_NOT_FOUND (man w);
              env := env w; trace := trace w |}).
Proof. rewrite handle_event_man. reflexivity. Qed.

Lemma not_found_trace kw w :
  trace (exec (_handle_event C SPA_NOT_FOUND kw) w) =
    trace w ++ [Forwarded SPA_NOT_FOUND kw].
Proof. rewrite handle_event_trace. reflexivity. Qed.

Lemma handle_event_outcome event kw w :
  outcome (_handle_event C event kw) w = Returned tt
  \/ exists what, outcome (_handle_event C event kw) w = Raised (Exception what).
Proof.
  unfold outcome. rewrite handle_event_run. unfold call_handle_event.
  destruct (handle_event C _ _ _ _) as [[what|] en']; simpl; eauto.
Qed.

(** C5. [async_connect] first runs discovery with the address and the
    identifier it was given. When discovery returns the empty list it
    dispatches [SPA_NOT_FOUND] (with the address and identifier), opens no
    session, leaves the state [ERROR_SPA_NOT_FOUND] and returns [None]
    (unless the handler raises on that event). When discovery returns a
    non-empty list it does what [async_connect_to_spa] does on the first
    descriptor, so any session it opens is bound to that descriptor. When
    discovery raises, so does it. The event that follows discovery is
    [SPA_NOT_FOUND] if and only if discovery returned the empty list. *)
Theorem async_connect_not_found_iff_empty w
    (spa_identifier : string) (spa_address : option string) :
  let located := outcome (async_locate_spas C spa_address (Some spa_identifier)) w in
  let w1 := exec (async_locate_spas C spa_address (Some spa_identifier)) w in
  let w' := exec (async_connect C spa_identifier spa_address) w in
  let not_found :=
    Forwarded SPA_NOT_FOUND
      {[ "spa_address" := py_opt_str spa_address;
         "spa_identifier" := PyStr spa_identifier ]} in
  (located = Returned (Some []) ->
     trace w' = trace w1 ++ [not_found]
     /\ connects (trace w') = connects (trace w)
     /\ _spa_state (man w') = ERROR_SPA_NOT_FOUND
     /\ (outcome (async_connect C spa_identifier spa_address) w = Returned None
         \/ exists what,
              outcome (async_connect C spa_identifier spa_address) w
                = Raised (Exception what))
     /\ (quiet C ->
         outcome (async_connect C spa_identifier spa_address) w = Returned None))
  /\ (forall first rest,
        located = Returned (Some (first :: rest)) ->
        async_connect C spa_identifier spa_address w
          = async_connect_to_spa C first w1
        /\ forall spa,
             spa ∈ connects (trace w') ->
             spa ∈ connects (trace w) \/ spa_descriptor spa = first)
  /\ (forall e,
        located = Raised e ->
        async_connect C spa_identifier spa_address w = (Raised e, w1))
  /\ located <> Returned None
  /\ ((exists rest, trace w' = trace w1 ++ not_found :: rest)
      <-> located = Returned (Some [])).
Proof.
  intros located w1 w' not_found.
  assert (Hrun := async_connect_run spa_identifier spa_address w).
  fold located in Hrun. simpl in Hrun. fold w1 in Hrun.
  assert (Hnone : located <> Returned None).
  { intros H. apply async_locate_spas_returned in H as [spas H]. discriminate. }
  assert (Hempty : located = Returned (Some []) ->
     trace w' = trace w1 ++ [not_found]
     /\ connects (trace w') = connects (trace w)
     /\ _spa_state (man w') = ERROR_SPA_NOT_FOUND
     /\ (outcome (async_connect C spa_identifier spa_address) w = Returned None
         \/ exists what,
              outcome (async_connect C spa_identifier spa_address) w
                = Raised (Exception what))
     /\ (quiet C ->
         outcome (async_connect C spa_identifier spa_address) w = Returned None)).
  { intros Hloc. rewrite Hloc in Hrun. simpl in Hrun.
    assert (Hw' : w' = exec (_handle_event C SPA_NOT_FOUND
                   {[ "spa_address" := py_opt_str spa_address;
                      "spa_identifier" := PyStr spa_identifier ]}) w1).
    { unfold w', exec at 1. rewrite Hrun. reflexivity. }
    assert (Hout : outcome (async_connect C spa_identifier spa_address) w =
              match outcome (_handle_event C SPA_NOT_FOUND
                   {[ "spa_address" := py_opt_str spa_address;
                      "spa_identifier" := PyStr spa_identifier ]}) w1 with
              | Returned _ => Returned None
              | Raised e => Raised e
              end).
    { unfold outcome at 1. rewrite Hrun. reflexivity. }
    rewrite Hw', not_found_trace, not_found_man, Hout.
    split; [reflexivity|]. split.
    { rewrite connects_app. simpl. rewrite app_nil_r.
      apply async_locate_spas_connects. }
    split; [reflexivity|]. split.
    - destruct (handle_event_outcome SPA_NOT_FOUND
                  {[ "spa_address" := py_opt_str spa_address;
                     "spa_identifier" := PyStr spa_identifier ]} w1)
        as [-> | [what ->]]; eauto.
    - intros Hq. rewrite quiet_handle_event_returns by exact Hq. reflexivity. }
  split; [exact Hempty|].
  split; [|split; [|split; [exact Hnone|]]].
  - intros first rest Hloc. rewrite Hloc in Hrun. split; [exact Hrun|].
    intros spa. unfold w', exec at 1. rewrite Hrun.
    intros Hin. apply async_connect_to_spa_connects in Hin as [Hin | ->].
    + left. unfold w1 in Hin. rewrite async_locate_spas_connects in Hin. exact Hin.
    + right. reflexivity.
  - intros e Hloc. rewrite Hloc in Hrun. exact Hrun.
  - split.
    + intros [rest Hrest]. unfold w', exec at 1 in Hrest. rewrite Hrun in Hrest.
      destruct located as [[[|first more]|]|e] eqn:Hloc.
      * reflexivity.
      * exfalso.
        destruct (_facade (man w1)) as [f|] eqn:Hf.
        -- rewrite async_connect_to_spa_refused in Hrest by (rewrite Hf; eauto).
           simpl in Hrest. rewrite <- (app_nil_r (trace w1)) in Hrest at 1.
           apply app_inv_head in Hrest. discriminate.
        -- destruct (async_connect_to_spa_starts first w1 Hf) as [ext Hext].
           unfold exec in Hext. rewrite Hext in Hrest.
           apply app_inv_head in Hrest. discriminate.
      * contradiction.
      * exfalso. simpl in Hrest.
        rewrite <- (app_nil_r (trace w1)) in Hrest at 1.
        apply app_inv_head in Hrest. discriminate.
    + intros Hloc. exists []. apply Hempty. exact Hloc.
Qed.

(** ** The sequence pump *)

Lemma pump_turn_decides w :
  pump_turn C w =
    perform C
      (pump_decision (_spa_state (man w)) (_spa_identifier (man w))
         (_spa_address (man w)) (_facade (man w)) (_spa_descriptors (man w))) w.
Proof.
  destruct w as [[cid a i n d f s st sl] en tr].
  destruct st, i, f, d; reflexivity.
Qed.

(** C7. One turn of the pump does what the decision table says, and the
    table reads only the state, the identifier and address hints, the
    facade and the descriptors: the turn acts only in [IDLE]; with an
    identifier hint and no facade it calls [async_connect] with the
    identifier and address hints; with no identifier hint and no descriptors
    it calls [async_locate_spas] with the address hint; in every other case
    it leaves the world untouched. *)
Theorem pump_turn_follows_decision w :
  let this := man w in
  pump_turn C w =
    perform C
      (pump_decision (_spa_state this) (_spa_identifier this)
         (_spa_address this) (_facade this) (_spa_descriptors this)) w
  /\ (_spa_state this <> IDLE -> pump_turn C w = (Returned tt, w))
  /\ (forall spa_identifier,
        _spa_state this = IDLE -> _spa_identifier this = Some spa_identifier ->
        _facade this = None ->
        pump_turn C w = (async_connect C spa_identifier (_spa_address this) ;; pass) w)
  /\ (_spa_state this = IDLE -> _spa_identifier this = None ->
      _spa_descriptors this = None ->
      pump_turn C w = (async_locate_spas C (_spa_address this) None ;; pass) w)
  /\ (_spa_state this = IDLE -> is_Some (_spa_identifier this) ->
      is_Some (_facade this) ->
      pump_turn C w = (Returned tt, w))
  /\ (_spa_state this = IDLE -> _spa_identifier this = None ->
      is_Some (_spa_descriptors this) ->
      pump_turn C w = (Returned tt, w)).
Proof.
  intros this. subst this. rewrite pump_turn_decides.
  split; [reflexivity|].
  destruct w as [[cid a i n d f s st sl] en tr]; simpl.
  repeat split.
  - intros Hst. destruct st, i, f, d; try reflexivity; contradiction.
  - intros spa_identifier -> -> ->. reflexivity.
  - intros -> -> ->. reflexivity.
  - intros -> [i' ->] [f' ->]. reflexivity.
  - intros -> -> [d' ->]. reflexivity.
Qed.

(** Outside [IDLE] the pump waits, however many turns it is given. *)
Lemma sequence_pump_waits (turns : nat) w :
  _spa_state (man w) <> IDLE -> _sequence_pump C turns w = (Returned tt, w).
Proof.
  intros Hst. induction turns as [|n IH]; [reflexivity|].
  simpl. rewrite bind_run, pump_turn_decides.
  destruct w as [[cid a i n' d f s st sl] en tr]; simpl in *.
  destruct st; try contradiction; exact IH.
Qed.

(** ** Hints *)

Lemma hint_from_config_not_empty (kw : gmap string string) (key : string) :
  hint_from_config kw key <> Some "".
Proof.
  unfold hint_from_config. destruct (decide (kw !! key = Some "")); congruence.
Qed.

(** C6. [__init__] turns an empty-string hint into [None], so a freshly
    built manager stores no empty hint. [async_set_spa_info] stores its
    three arguments as given: an empty string stays an empty string, and
    the pump then takes the empty identifier for a configured one, where a
    manager built from the same empty strings would discover instead. *)
Theorem set_spa_info_keeps_empty_hints w
    (client_identifier : string -> string) (client_uuid : string)
    (kw : gmap string string)
    (spa_address spa_identifier spa_name : option string) :
  let built := __init__ client_identifier client_uuid kw in
  let w' := exec (async_set_spa_info C spa_address spa_identifier spa_name) w in
  let empty := exec (async_set_spa_info C (Some "") (Some "") (Some "")) w in
  let from_empty :=
    __init__ client_identifier client_uuid
      {[ "spa_address" := ""; "spa_identifier" := ""; "spa_name" := "" ]} in
  (_spa_address built <> Some ""
   /\ _spa_identifier built <> Some ""
   /\ _spa_name built <> Some "")
  /\ (_spa_address (man w') = spa_address
      /\ _spa_identifier (man w') = spa_identifier
      /\ _spa_name (man w') = spa_name)
  /\ (_spa_address (man empty) = Some ""
      /\ _spa_identifier (man empty) = Some ""
      /\ _spa_name (man empty) = Some "")
  /\ pump_decision (_spa_state (man empty)) (_spa_identifier (man empty))
       (_spa_address (man empty)) (_facade (man empty))
       (_spa_descriptors (man empty))
     = ConnectByIdentifier "" (Some "")
  /\ pump_decision (_spa_state from_empty) (_spa_identifier from_empty)
       (_spa_address from_empty) (_facade from_empty)
       (_spa_descriptors from_empty)
     = Discover None.
Proof.
  intros built w' empty from_empty.
  split; [unfold built; simpl; auto using hint_from_config_not_empty|].
  assert (Hinfo : forall a i n,
    man (exec (async_set_spa_info C a i n) w) =
      set_spa_state IDLE (set_spa None (set_facade None (set_spa_descriptors None
        (set_spa_name n (set_spa_identifier i (set_spa_address a (man w)))))))).
  { intros a i n. unfold exec, async_set_spa_info. run_binds.
    rewrite async_reset_run. reflexivity. }
  unfold w', empty. rewrite !Hinfo. simpl.
  repeat split.
Qed.

End Properties.

(** * The manager at work *)

#[local] Existing Instance M_ret.
#[local] Existing Instance M_bind.

(** The two scenarios of the spec's section 8, run on the demo
    installation. *)

(** An identifier hint and a network with no spa: one turn of the pump
    forwards started, finished (empty list) and not-found, and ends in
    [ERROR_SPA_NOT_FOUND]. *)
Example pump_finds_nothing :
  let w := exec (pump_turn (Demo.network []))
             (Demo.fresh {[ "spa_identifier" := "ABC" ]}) in
  forwarded (trace w) =
    [ (LOCATING_STARTED, ∅);
      (LOCATING_FINISHED, {[ "spa_descriptors" := PyDescriptors [] ]});
      (SPA_NOT_FOUND, {[ "spa_address" := PyNone; "spa_identifier" := PyStr "ABC" ]}) ]
  /\ _spa_state (man w) = ERROR_SPA_NOT_FOUND.
Proof. split; reflexivity. Qed.

(** No hints; the caller discovers two spas and connects to the first:
    started, completion, finished with a facade, and [CONNECTED]. *)
Example manual_discover_then_connect :
  let C := Demo.network [Demo.spa1; Demo.spa2] in
  let w1 := exec (async_locate_spas C None None) (Demo.fresh ∅) in
  let w2 := exec (async_connect_to_spa C Demo.spa1) w1 in
  let spa := {| spa_client_id := "IOSuuid"; spa_descriptor := Demo.spa1 |} in
  _spa_descriptors (man w1) = Some [Demo.spa1; Demo.spa2]
  /\ drop (length (trace w1)) (trace w2) =
       [ Forwarded CONNECTION_STARTED ∅;
         SpaConnect spa;
         Forwarded CONNECTION_SPA_COMPLETE ∅;
         Forwarded CONNECTION_FINISHED
           {[ "facade" := PyFacade {| facade_spa := Some spa |} ]} ]
  /\ _spa_state (man w2) = CONNECTED
  /\ outcome (async_connect_to_spa C Demo.spa1) w1
       = Returned (Some {| facade_spa := Some spa |}).
Proof. repeat split; reflexivity. Qed.

(** C2 at work: a ping received in [ERROR_RF_FAULT] by a manager holding a
    session and a facade. *)
Lemma ping_received_resets_witness :
  _spa_state (man (Demo.in_state ERROR_RF_FAULT Demo.connected))
    ∈ [ERROR_PING_MISSED; ERROR_RF_FAULT; ERROR_NEEDS_ATTENTION]
  /\ _spa_state (man (exec (_handle_event (Demo.network []) RUNNING_PING_RECEIVED ∅)
                        (Demo.in_state ERROR_RF_FAULT Demo.connected))) = IDLE.
Proof.
  assert (Hin : _spa_state (man (Demo.in_state ERROR_RF_FAULT Demo.connected))
                  ∈ [ERROR_PING_MISSED; ERROR_RF_FAULT; ERROR_NEEDS_ATTENTION]).
  { apply list_elem_of_further, list_elem_of_here. }
  split; [exact Hin|].
  apply (ping_received_resets_from_error_states (Demo.network [])
           (Demo.in_state ERROR_RF_FAULT Demo.connected) ∅).
  exact Hin.
Defined.

(** C3 at work: discovery on a network where the Locator times out. *)
Lemma locate_raises_after_finished_witness :
  outcome (_handle_event Demo.broken LOCATING_STARTED ∅) (Demo.fresh ∅) = Returned tt
  /\ locator_result
       (discover Demo.broken None None
          (env (exec (_handle_event Demo.broken LOCATING_STARTED ∅) (Demo.fresh ∅)))).1
     = inl "timed out"
  /\ exists e,
       outcome (async_locate_spas Demo.broken None None) (Demo.fresh ∅) = Raised e
       /\ (quiet Demo.broken -> e = Exception "timed out").
Proof.
  split; [reflexivity|]. split; [reflexivity|].
  apply (async_locate_spas_brackets_discovery Demo.broken (Demo.fresh ∅) None None);
    reflexivity.
Defined.

(** C4 at work: a connection from a fresh manager on a network whose
    handshake completes. *)
Lemma connect_builds_facade_witness :
  _facade (man (Demo.fresh ∅)) = None
  /\ (is_Some (_facade (man (exec (async_connect_to_spa (Demo.network [Demo.spa1]) Demo.spa1)
                                (Demo.fresh ∅)))) ->
      _spa_state (man (exec (async_connect_to_spa (Demo.network [Demo.spa1]) Demo.spa1)
                         (Demo.fresh ∅))) = CONNECTED).
Proof.
  split; [reflexivity|].
  apply (connection_finished_connected_iff_facade (Demo.network [Demo.spa1])
           (Demo.fresh ∅) ∅ Demo.spa1).
  reflexivity.
Defined.

(** C5 at work: connecting by identifier on a network with no spa. *)
Lemma connect_by_identifier_not_found_witness :
  outcome (async_locate_spas (Demo.network []) None (Some "ABC")) (Demo.fresh ∅)
    = Returned (Some [])
  /\ _spa_state (man (exec (async_connect (Demo.network []) "ABC" None) (Demo.fresh ∅)))
     = ERROR_SPA_NOT_FOUND.
Proof.
  split; [reflexivity|].
  apply (async_connect_not_found_iff_empty (Demo.network []) (Demo.fresh ∅) "ABC" None).
  reflexivity.
Defined.

(** C7 at work: an idle manager with an identifier hint and no facade. *)
Lemma pump_connects_by_identifier_witness :
  _spa_state (man (Demo.fresh {[ "spa_identifier" := "ABC" ]})) = IDLE
  /\ _spa_identifier (man (Demo.fresh {[ "spa_identifier" := "ABC" ]})) = Some "ABC"
  /\ _facade (man (Demo.fresh {[ "spa_identifier" := "ABC" ]})) = None
  /\ pump_turn (Demo.network []) (Demo.fresh {[ "spa_identifier" := "ABC" ]})
     = (async_connect (Demo.network []) "ABC" None ;; pass)
         (Demo.fresh {[ "spa_identifier" := "ABC" ]}).
Proof.
  destruct (pump_turn_follows_decision (Demo.network [])
              (Demo.fresh {[ "spa_identifier" := "ABC" ]})) as (_ & _ & H & _).
  split; [reflexivity|]. split; [reflexivity|]. split; [reflexivity|].
  exact (H "ABC" eq_refl eq_refl eq_refl).
Defined.

(** C9 at work: connecting while a facade exists. *)
Lemma connect_with_facade_asserts_witness :
  is_Some (_facade (man Demo.connected))
  /\ async_connect_to_spa (Demo.network [Demo.spa1]) Demo.spa2 Demo.connected
     = (Raised AssertionError, Demo.connected).
Proof.
  assert (H : is_Some (_facade (man Demo.connected))) by (eexists; reflexivity).
  split; [exact H|].
  apply (async_connect_to_spa_asserts_no_facade (Demo.network [Demo.spa1])
           Demo.connected Demo.spa2).
  exact H.
Defined.

(** C6 at work: reconfiguring the connected demo manager with empty
    strings leaves an empty identifier hint behind. *)
Example reconfigure_with_empty_strings :
  _spa_identifier
    (man (exec (async_set_spa_info (Demo.network []) (Some "") (Some "") (Some ""))
            Demo.connected)) = Some "".
Proof. reflexivity. Qed.

(** * The lifecycle as a whole *)

Section Lifecycle.

Context {Env : Type} (C : Collaborators Env).
Implicit Types (w : World Env) (event : GeckoSpaEvent) (kw : kwargs).

(** ** What the dispatcher leaves alone *)

Lemma pre_process_configuration event w :
  configuration (man (exec (pre_process C event) w)) = configuration (man w).
Proof.
  destruct (pre_process_cases C event w) as [[st ->] | [-> | (_ & _ & ->)]];
    reflexivity.
Qed.

Lemma pre_process_without_ping event w :
  event <> RUNNING_PING_RECEIVED ->
  holdings (man (exec (pre_process C event) w)) = holdings (man w)
  /\ env (exec (pre_process C event) w) = env w
  /\ trace (exec (pre_process C event) w) = trace w.
Proof.
  intros Hev.
  destruct (pre_process_cases C event w) as [[st ->] | [-> | (Hp & _ & _)]];
    [auto | auto | contradiction].
Qed.

(** X1. Whatever the event, the dispatcher never touches the client
    identity or the three hints; and unless the event is
    [RUNNING_PING_RECEIVED] it never touches descriptors, facade or session
    either and calls nothing but the handler. *)
Theorem dispatcher_frame event kw w :
  let w' := exec (_handle_event C event kw) w in
  configuration (man w') = configuration (man w)
  /\ (event <> RUNNING_PING_RECEIVED ->
      holdings (man w') = holdings (man w)
      /\ trace w' = trace w ++ [Forwarded event kw]).
Proof.
  intros w'. unfold w'. rewrite handle_event_man, handle_event_trace.
  split; [apply pre_process_configuration|].
  intros Hev. destruct (pre_process_without_ping event w Hev) as (Hh & _ & Ht).
  rewrite Ht. split; [exact Hh | reflexivity].
Qed.

#[local] Existing Instance M_ret.
#[local] Existing Instance M_bind.


(** X3. A second reset right after a reset does nothing: it returns
    normally, changes no field and disconnects nothing, so a session is
    disconnected at most once however often the manager is reset. *)
Theorem async_reset_twice w :
  async_reset C (exec (async_reset C) w) = (Returned tt, exec (async_reset C) w)
  /\ disconnects (trace (exec (async_reset C) (exec (async_reset C) w)))
     = disconnects (trace (exec (async_reset C) w)).
Proof.
  assert (H : async_reset C (exec (async_reset C) w)
              = (Returned tt, exec (async_reset C) w)).
  { unfold exec. rewrite !async_reset_run. reflexivity. }
  split; [exact H|]. unfold exec at 1. rewrite H. reflexivity.
Qed.

(** ** The state says connected only with a facade *)

Lemma pre_process_connected_has_facade event w :
  connected_has_facade (man w) ->
  connected_has_facade (man (exec (pre_process C event) w)).
Proof.
  destruct w as [[cid a i n d f s st sl] en tr]. unfold connected_has_facade.
  simpl. intros Hinv.
  destruct event; simpl; try discriminate; try exact Hinv.
  - destruct f; simpl; [eauto | exact Hinv].
  - unfold exec, pre_process. rewrite bind_run. simpl.
    destruct (state_in st _).
    + rewrite async_reset_run. simpl. discriminate.
    + simpl. exact Hinv.
Qed.

Lemma handle_event_connected_has_facade event kw w :
  connected_has_facade (man w) ->
  connected_has_facade (man (exec (_handle_event C event kw) w)).
Proof.
  intros Hinv. rewrite handle_event_man.
  exact (pre_process_connected_has_facade event w Hinv).
Qed.

Lemma callbacks_connected_has_facade events w :
  connected_has_facade (man w) ->
  connected_has_facade (man (exec (callbacks C events) w)).
Proof.
  apply (callbacks_preserve C (fun w => connected_has_facade (man w))).
  intros event kw w1. apply handle_event_connected_has_facade.
Qed.

Lemma idle_connected_has_facade (this : GeckoAsyncSpaMan) :
  _spa_state this = IDLE -> connected_has_facade this.
Proof. unfold connected_has_facade. intros ->. discriminate. Qed.

Lemma async_locate_spas_idle spa_address spa_identifier w :
  _spa_state (man (exec (async_locate_spas C spa_address spa_identifier) w)) = IDLE.
Proof.
  rewrite async_locate_spas_exec. unfold exec at 1.
  rewrite locate_finally_run.
  match goal with
  | |- context [(_handle_event C _ ?p ?w2).2] =>
      pose proof (finished_man C p w2) as Hm
  end.
  unfold exec at 1 in Hm. rewrite Hm. reflexivity.
Qed.

Lemma async_connect_to_spa_connected_has_facade spa_descriptor w :
  connected_has_facade (man w) ->
  connected_has_facade (man (exec (async_connect_to_spa C spa_descriptor) w)).
Proof.
  intros Hinv.
  destruct (_facade (man w)) as [f|] eqn:Hf.
  { unfold exec. rewrite async_connect_to_spa_refused by (rewrite Hf; eauto).
    exact Hinv. }
  rewrite async_connect_to_spa_exec by exact Hf.
  unfold exec at 1. rewrite connect_finally_run.
  match goal with
  | |- context [(_handle_event C _ ?p ?w2).2] =>
      apply (handle_event_connected_has_facade CONNECTION_FINISHED p w2)
  end.
  destruct (connect_handshake_facts C spa_descriptor w Hf) as (Hf1 & Hst1 & _).
  rewrite connect_try_exec. simpl.
  destruct (outcome (connect_handshake C spa_descriptor) w);
    [destruct (decide _)|]; unfold connected_has_facade; simpl;
    intros Hc; contradiction.
Qed.

Lemma async_connect_connected_has_facade
    (spa_identifier : string) (spa_address : option string) w :
  connected_has_facade (man (exec (async_connect C spa_identifier spa_address) w)).
Proof.
  unfold exec at 1. rewrite async_connect_run.
  pose proof (async_locate_spas_idle spa_address (Some spa_identifier) w) as Hidle.
  apply idle_connected_has_facade in Hidle.
  destruct (outcome (async_locate_spas C spa_address (Some spa_identifier)) w)
    as [[[|first rest]|]|e]; simpl; try exact Hidle.
  - apply handle_event_connected_has_facade. exact Hidle.
  - apply async_connect_to_spa_connected_has_facade. exact Hidle.
Qed.

Lemma exec_then_pass {A : Type} (m : M A) w :
  exec (m ;; pass) w = exec m w.
Proof.
  rewrite exec_bind. destruct (outcome m w); reflexivity.
Qed.

Lemma then_pass_run {A : Type} (m : M A) w :
  (m ;; pass) w =
    (match outcome m w with
     | Returned _ => Returned tt
     | Raised e => Raised e
     end, exec m w).
Proof. exact (bind_then_ret m tt w). Qed.

Lemma pump_turn_connected_has_facade w :
  connected_has_facade (man w) ->
  connected_has_facade (man (exec (pump_turn C) w)).
Proof.
  intros Hinv. unfold exec at 1. rewrite pump_turn_decides.
  destruct (pump_decision _ _ _ _ _) as [i a|a|]; simpl.
  - fold (exec (async_connect C i a ;; pass) w). rewrite exec_then_pass.
    apply async_connect_connected_has_facade.
  - fold (exec (async_locate_spas C a None ;; pass) w). rewrite exec_then_pass.
    apply idle_connected_has_facade, async_locate_spas_idle.
  - exact Hinv.
Qed.

(** X4. That the state is [CONNECTED] only while a facade exists is kept
    by everything the manager does: every dispatched event, reset,
    reconfiguration, discovery, both ways of connecting, and any number of
    turns of the pump. *)
Theorem connected_has_facade_is_kept w :
  connected_has_facade (man w) ->
  (forall event kw, connected_has_facade (man (exec (_handle_event C event kw) w)))
  /\ connected_has_facade (man (exec (async_reset C) w))
  /\ (forall a i n,
        connected_has_facade (man (exec (async_set_spa_info C a i n) w)))
  /\ (forall a i, connected_has_facade (man (exec (async_locate_spas C a i) w)))
  /\ (forall d, connected_has_facade (man (exec (async_connect_to_spa C d) w)))
  /\ (forall i a, connected_has_facade (man (exec (async_connect C i a) w)))
  /\ (forall turns, connected_has_facade (man (exec (_sequence_pump C turns) w))).
Proof.
  intros Hinv. repeat split.
  - intros event kw. apply handle_event_connected_has_facade. exact Hinv.
  - apply idle_connected_has_facade. unfold exec. rewrite async_reset_run.
    reflexivity.
  - intros a i n. apply idle_connected_has_facade.
    unfold exec, async_set_spa_info. rewrite bind_run. simpl.
    rewrite bind_run. simpl. rewrite bind_run. simpl.
    rewrite async_reset_run. reflexivity.
  - intros a i. apply idle_connected_has_facade, async_locate_spas_idle.
  - intros d. apply async_connect_to_spa_connected_has_facade. exact Hinv.
  - intros i a. apply async_connect_connected_has_facade.
  - intros turns. revert w Hinv.
    induction turns as [|n IH]; intros w Hinv; [exact Hinv|].
    simpl. rewrite exec_bind.
    pose proof (pump_turn_connected_has_facade w Hinv) as Hturn.
    destruct (outcome (pump_turn C) w); [apply IH|]; exact Hturn.
Qed.

(** ** Who writes the configuration *)

Lemma handle_event_configuration event kw w :
  configuration (man (exec (_handle_event C event kw) w)) = configuration (man w).
Proof. rewrite handle_event_man. apply pre_process_configuration. Qed.

Lemma callbacks_configuration events w :
  configuration (man (exec (callbacks C events) w)) = configuration (man w).
Proof.
  apply (callbacks_preserve C
           (fun w' => configuration (man w') = configuration (man w)));
    [|reflexivity].
  intros event kw w1 <-. apply handle_event_configuration.
Qed.

Lemma call_discover_exec spa_address spa_identifier w :
  exec (call_discover C spa_address spa_identifier) w =
    exec (callbacks C
            (locator_events (discover C spa_address spa_identifier (env w)).1))
      {| man := man w;
         env := (discover C spa_address spa_identifier (env w)).2;
         trace := trace w ++ [LocatorDiscover spa_address spa_identifier] |}.
Proof.
  unfold exec at 1. unfold call_discover. rewrite bind_run.
  destruct (discover C spa_address spa_identifier (env w)) as [run en']. simpl.
  rewrite bind_run. unfold exec.
  destruct (callbacks C (locator_events run) _) as [[[]|e] w2]; simpl;
    [destruct (locator_result run)|]; reflexivity.
Qed.

Lemma locate_try_exec spa_address spa_identifier w :
  exec (locate_try C spa_address spa_identifier) w =
    let ws := exec (_handle_event C LOCATING_STARTED ∅) w in
    match outcome (_handle_event C LOCATING_STARTED ∅) w with
    | Raised _ => ws
    | Returned _ =>
        let wd := exec (call_discover C spa_address spa_identifier) ws in
        match outcome (call_discover C spa_address spa_identifier) ws with
        | Returned spas =>
            {| man := set_spa_descriptors (Some spas) (man wd);
               env := env wd; trace := trace wd |}
        | Raised _ => wd
        end
    end.
Proof.
  unfold locate_try. rewrite exec_bind.
  destruct (outcome (_handle_event C LOCATING_STARTED ∅) w); [|reflexivity].
  rewrite exec_bind.
  destruct (outcome (call_discover C _ _) _); reflexivity.
Qed.

Lemma async_locate_spas_configuration spa_address spa_identifier w :
  configuration (man (exec (async_locate_spas C spa_address spa_identifier) w))
    = configuration (man w).
Proof.
  rewrite async_locate_spas_exec. unfold exec at 1. rewrite locate_finally_run.
  match goal with
  | |- context [(_handle_event C _ ?p ?w2).2] =>
      pose proof (handle_event_configuration LOCATING_FINISHED p w2) as Hfin
  end.
  unfold exec at 1 in Hfin. rewrite Hfin. clear Hfin.
  rewrite locate_try_exec. simpl.
  pose proof (handle_event_configuration LOCATING_STARTED ∅ w) as Hs.
  destruct (outcome (_handle_event C LOCATING_STARTED ∅) w); [|exact Hs].
  rewrite <- Hs.
  set (ws := exec (_handle_event C LOCATING_STARTED ∅) w).
  assert (Hd : configuration
                 (man (exec (call_discover C spa_address spa_identifier) ws))
               = configuration (man ws)).
  { rewrite call_discover_exec, callbacks_configuration. reflexivity. }
  destruct (outcome (call_discover C spa_address spa_identifier) ws);
    exact Hd.
Qed.

Lemma connect_handshake_configuration spa_descriptor w :
  configuration (man (exec (connect_handshake C spa_descriptor) w))
    = configuration (man w).
Proof.
  unfold connect_handshake. rewrite exec_bind.
  pose proof (handle_event_configuration CONNECTION_STARTED ∅ w) as Hs.
  set (ws := exec (_handle_event C CONNECTION_STARTED ∅) w) in *.
  destruct (outcome (_handle_event C CONNECTION_STARTED ∅) w); [|exact Hs].
  rewrite exec_bind. simpl. rewrite exec_bind. simpl.
  rewrite call_connect_exec. change (exec self ws) with ws.
  rewrite callbacks_configuration. simpl. exact Hs.
Qed.

Lemma async_connect_to_spa_configuration spa_descriptor w :
  configuration (man (exec (async_connect_to_spa C spa_descriptor) w))
    = configuration (man w).
Proof.
  destruct (_facade (man w)) as [f|] eqn:Hf.
  { unfold exec. rewrite async_connect_to_spa_refused by (rewrite Hf; eauto).
    reflexivity. }
  rewrite async_connect_to_spa_exec by exact Hf.
  unfold exec at 1. rewrite connect_finally_run.
  match goal with
  | |- context [(_handle_event C _ ?p ?w2).2] =>
      pose proof (handle_event_configuration CONNECTION_FINISHED p w2) as Hfin
  end.
  unfold exec at 1 in Hfin. rewrite Hfin. clear Hfin.
  rewrite connect_try_exec. simpl.
  pose proof (connect_handshake_configuration spa_descriptor w) as Hh.
  destruct (outcome (connect_handshake C spa_descriptor) w);
    [destruct (decide _)|]; exact Hh.
Qed.

Lemma async_connect_configuration
    (spa_identifier : string) (spa_address : option string) w :
  configuration (man (exec (async_connect C spa_identifier spa_address) w))
    = configuration (man w).
Proof.
  unfold exec at 1. rewrite async_connect_run.
  pose proof (async_locate_spas_configuration spa_address (Some spa_identifier) w)
    as Hloc.
  destruct (outcome (async_locate_spas C spa_address (Some spa_identifier)) w)
    as [[[|first rest]|]|e]; simpl; try exact Hloc.
  - rewrite handle_event_configuration. exact Hloc.
  - rewrite <- Hloc. apply async_connect_to_spa_configuration.
Qed.

Lemma pump_turn_configuration w :
  configuration (man (exec (pump_turn C) w)) = configuration (man w).
Proof.
  unfold exec at 1. rewrite pump_turn_decides.
  destruct (pump_decision _ _ _ _ _) as [i a|a|]; simpl.
  - fold (exec (async_connect C i a ;; pass) w). rewrite exec_then_pass.
    apply async_connect_configuration.
  - fold (exec (async_locate_spas C a None ;; pass) w). rewrite exec_then_pass.
    apply async_locate_spas_configuration.
  - reflexivity.
Qed.

(** X5. The client identity and the three hints are written by
    [__init__] and [async_set_spa_info] only: no dispatched event, reset,
    discovery, connection or turn of the pump changes any of them, whatever
    the collaborators do. *)
Theorem configuration_is_kept w :
  (forall event kw,
      configuration (man (exec (_handle_event C event kw) w)) = configuration (man w))
  /\ configuration (man (exec (async_reset C) w)) = configuration (man w)
  /\ (forall a i,
        configuration (man (exec (async_locate_spas C a i) w)) = configuration (man w))
  /\ (forall d,
        configuration (man (exec (async_connect_to_spa C d) w)) = configuration (man w))
  /\ (forall i a,
        configuration (man (exec (async_connect C i a) w)) = configuration (man w))
  /\ (forall turns,
        configuration (man (exec (_sequence_pump C turns) w)) = configuration (man w)).
Proof.
  repeat split.
  - intros event kw. apply handle_event_configuration.
  - unfold exec. rewrite async_reset_run. reflexivity.
  - intros a i. apply async_locate_spas_configuration.
  - intros d. apply async_connect_to_spa_configuration.
  - intros i a. apply async_connect_configuration.
  - intros turns. revert w.
    induction turns as [|n IH]; intros w; [reflexivity|].
    simpl. rewrite exec_bind.
    pose proof (pump_turn_configuration w) as Hturn.
    destruct (outcome (pump_turn C) w); [rewrite IH|]; exact Hturn.
Qed.

(** ** The pump over many turns *)

Lemma pump_decision_connect st ident addr fac desc (i : string) (a : option string) :
  pump_decision st ident addr fac desc = ConnectByIdentifier i a ->
  st = IDLE /\ ident = Some i /\ fac = None /\ a = addr.
Proof. destruct st, ident, fac, desc; simpl; intros [= <- <-]; auto. Qed.

Lemma pump_decision_discover st ident addr fac desc (a : option string) :
  pump_decision st ident addr fac desc = Discover a ->
  st = IDLE /\ ident = None /\ desc = None /\ a = addr.
Proof. destruct st, ident, fac, desc; simpl; intros [= <-]; auto. Qed.

Lemma pump_turn_run w : pump_turn C w = perform C (decision_in w) w.
Proof. apply pump_turn_decides. Qed.

Lemma sequence_pump_settled (turns : nat) w :
  decision_in w = DoNothing -> _sequence_pump C turns w = (Returned tt, w).
Proof.
  intros Hd. induction turns as [|n IH]; [reflexivity|].
  simpl. rewrite bind_run, pump_turn_run, Hd. exact IH.
Qed.

Lemma async_locate_spas_grows spa_address spa_identifier w :
  exists ext,
    trace (exec (async_locate_spas C spa_address spa_identifier) w)
      = trace w ++ Forwarded LOCATING_STARTED ∅ :: ext.
Proof.
  rewrite async_locate_spas_exec. unfold exec at 1. rewrite locate_finally_run.
  match goal with
  | |- context [(_handle_event C _ ?p ?w2).2] =>
      destruct (handle_event_extends C LOCATING_FINISHED p w2) as [ext2 Hfin]
  end.
  unfold exec at 1 in Hfin. rewrite Hfin. clear Hfin.
  destruct (locate_try_trace C spa_address spa_identifier w) as (mid & -> & _).
  exists (mid ++ ext2). rewrite <- !app_assoc. reflexivity.
Qed.

Lemma async_connect_grows (spa_identifier : string) (spa_address : option string) w :
  exists ext,
    trace (exec (async_connect C spa_identifier spa_address) w)
      = trace w ++ Forwarded LOCATING_STARTED ∅ :: ext.
Proof.
  unfold exec at 1. rewrite async_connect_run.
  destruct (async_locate_spas_grows spa_address (Some spa_identifier) w)
    as [ext Hext].
  set (w1 := exec (async_locate_spas C spa_address (Some spa_identifier)) w) in *.
  destruct (outcome (async_locate_spas C spa_address (Some spa_identifier)) w)
    as [[[|first rest]|]|e]; simpl; eauto.
  - rewrite not_found_trace, Hext. eexists. rewrite <- app_assoc. reflexivity.
  - destruct (_facade (man w1)) as [f|] eqn:Hf.
    + rewrite async_connect_to_spa_refused by (rewrite Hf; eauto). eauto.
    + destruct (async_connect_to_spa_starts C first w1 Hf) as [ext' Hext'].
      unfold exec in Hext'. rewrite Hext', Hext.
      eexists. rewrite <- app_assoc. reflexivity.
Qed.

Lemma trace_grows_differs (t : list Action) (a : Action) (ext : list Action) :
  t ++ a :: ext <> t.
Proof.
  intros H. apply (f_equal length) in H. rewrite length_app in H.
  simpl in H. lia.
Qed.

(** X6. The pump leaves the world exactly as it is, for any number of
    turns, if and only if its decision there is to do nothing: not idle, or
    idle with an identifier hint and a facade, or idle without an identifier
    hint and with descriptors. In every other world already its first turn
    dispatches [LOCATING_STARTED]. *)
Theorem pump_rests_iff_nothing_to_do w :
  decision_in w = DoNothing
  <-> forall turns, _sequence_pump C turns w = (Returned tt, w).
Proof.
  split.
  - intros Hd turns. apply sequence_pump_settled. exact Hd.
  - intros Hrest. specialize (Hrest 1). simpl in Hrest.
    assert (Hturn : exec (pump_turn C) w = w).
    { rewrite bind_run in Hrest. unfold exec.
      destruct (pump_turn C w) as [[[]|e] w']; simpl;
        [injection Hrest as ->; reflexivity | discriminate Hrest]. }
    unfold exec in Hturn. rewrite pump_turn_run in Hturn.
    destruct (decision_in w) as [i a|a|]; [exfalso..|reflexivity]; simpl in Hturn.
    + fold (exec (async_connect C i a ;; pass) w) in Hturn.
      rewrite exec_then_pass in Hturn.
      destruct (async_connect_grows i a w) as [ext Hext].
      rewrite Hturn in Hext. symmetry in Hext.
      exact (trace_grows_differs _ _ _ Hext).
    + fold (exec (async_locate_spas C a None ;; pass) w) in Hturn.
      rewrite exec_then_pass in Hturn.
      destruct (async_locate_spas_grows a None w) as [ext Hext].
      rewrite Hturn in Hext. symmetry in Hext.
      exact (trace_grows_differs _ _ _ Hext).
Qed.

(** X7. The pump does not retry a search that found nothing: when it
    connects by identifier, discovery returns the empty list and the handler
    raises nothing, the first turn ends in [ERROR_SPA_NOT_FOUND] and every
    further turn does nothing. *)
Theorem pump_does_not_retry_not_found w (i : string) (a : option string) (turns : nat) :
  quiet C ->
  decision_in w = ConnectByIdentifier i a ->
  outcome (async_locate_spas C a (Some i)) w = Returned (Some []) ->
  _sequence_pump C (S turns) w = (Returned tt, exec (async_connect C i a) w)
  /\ _spa_state (man (exec (async_connect C i a) w)) = ERROR_SPA_NOT_FOUND.
Proof.
  intros Hq Hd Hloc.
  assert (Hrun := async_connect_run C i a w). rewrite Hloc in Hrun. simpl in Hrun.
  rewrite quiet_handle_event_returns in Hrun by exact Hq.
  assert (Hout : outcome (async_connect C i a) w = Returned None)
    by (unfold outcome; rewrite Hrun; reflexivity).
  assert (Hst : _spa_state (man (exec (async_connect C i a) w)) = ERROR_SPA_NOT_FOUND).
  { unfold exec at 1. rewrite Hrun. simpl. rewrite not_found_man. reflexivity. }
  split; [|exact Hst].
  simpl. rewrite bind_run, pump_turn_run, Hd. simpl.
  rewrite then_pass_run, Hout.
  apply sequence_pump_waits. rewrite Hst. discriminate.
Qed.

(** X8. Without an identifier hint the pump discovers once: when its
    discovery returns, the descriptors are stored (an empty list too), the
    manager is idle again, and every further turn does nothing. *)
Theorem pump_discovers_once w (a : option string)
    (o : option (list GeckoAsyncSpaDescriptor)) (turns : nat) :
  decision_in w = Discover a ->
  outcome (async_locate_spas C a None) w = Returned o ->
  _sequence_pump C (S turns) w = (Returned tt, exec (async_locate_spas C a None) w)
  /\ _spa_descriptors (man (exec (async_locate_spas C a None) w)) = o
  /\ is_Some o.
Proof.
  intros Hd Hloc.
  destruct (async_locate_spas_returned C a None w o Hloc) as [spas ->].
  assert (Hdesc : _spa_descriptors (man (exec (async_locate_spas C a None) w))
                  = Some spas).
  { pose proof (async_locate_spas_outcome C a None w) as Ho. rewrite Hloc in Ho.
    destruct (outcome (locate_finally C) _); [|discriminate].
    destruct (outcome (locate_try C a None) w); [|discriminate].
    congruence. }
  split; [|split; [exact Hdesc | eauto]].
  destruct (pump_decision_discover _ _ _ _ _ _ Hd) as (_ & Hi & _ & _).
  assert (Hsettled : decision_in (exec (async_locate_spas C a None) w) = DoNothing).
  { unfold decision_in.
    pose proof (async_locate_spas_configuration a None w) as Hc.
    unfold configuration in Hc. injection Hc as _ _ Hi' _.
    rewrite async_locate_spas_idle, Hi', Hi, Hdesc. reflexivity. }
  simpl. rewrite bind_run, pump_turn_run, Hd. simpl.
  rewrite then_pass_run, Hloc.
  apply sequence_pump_settled. exact Hsettled.
Qed.

Lemma async_locate_spas_raises_quiet spa_address spa_identifier w what :
  quiet C ->
  locator_result
    (discover C spa_address spa_identifier
       (env (exec (_handle_event C LOCATING_STARTED ∅) w))).1 = inl what ->
  outcome (async_locate_spas C spa_address spa_identifier) w
    = Raised (Exception what).
Proof.
  intros Hq Hrun.
  pose proof (quiet_handle_event_returns C LOCATING_STARTED ∅ w Hq) as Hs.
  destruct (locate_try_raised C _ _ _ _ Hs Hrun) as (e & He & Hwhat).
  rewrite async_locate_spas_outcome, He.
  unfold outcome at 1. rewrite locate_finally_run.
  match goal with
  | |- context [(_handle_event C _ ?p ?w2).1] =>
      pose proof (quiet_handle_event_returns C LOCATING_FINISHED p w2 Hq) as Hfin
  end.
  unfold outcome in Hfin. rewrite Hfin, (Hwhat Hq). reflexivity.
Qed.

(** X9. An exception of the Locator ends the pump: when a turn that
    discovers or connects by identifier meets a Locator that raises (and the
    handler raises nothing), the pump stops with that exception after this
    one turn, however many turns it was given; it has run discovery with the
    configured address and identifier hints and nothing after it. *)
Theorem pump_ends_when_discovery_raises w (what : string) (turns : nat) :
  quiet C ->
  decision_in w <> DoNothing ->
  locator_result
    (discover C (_spa_address (man w)) (_spa_identifier (man w))
       (env (exec (_handle_event C LOCATING_STARTED ∅) w))).1 = inl what ->
  _sequence_pump C (S turns) w =
    (Raised (Exception what),
     exec (async_locate_spas C (_spa_address (man w)) (_spa_identifier (man w))) w).
Proof.
  intros Hq Hd Hrun.
  pose proof (async_locate_spas_raises_quiet _ _ _ _ Hq Hrun) as Hloc.
  simpl. rewrite bind_run, pump_turn_run.
  destruct (decision_in w) as [i a|a|] eqn:Hdec; [..|contradiction].
  - destruct (pump_decision_connect _ _ _ _ _ _ _ Hdec) as (_ & Hi & _ & ->).
    rewrite Hi in Hloc |- *. simpl. rewrite then_pass_run.
    unfold outcome, exec at 1 2. rewrite async_connect_run, Hloc. reflexivity.
  - destruct (pump_decision_discover _ _ _ _ _ _ Hdec) as (_ & Hi & _ & ->).
    rewrite Hi in Hloc |- *. simpl. rewrite then_pass_run, Hloc. reflexivity.
Qed.

(** X10. Reconfiguring always restarts the sequence: after
    [async_set_spa_info], whatever the manager was doing, the pump's next
    decision is to connect by the new identifier (with the new address) when
    an identifier was given, and to discover with the new address when none
    was; it is never to do nothing. The name hint plays no part. *)
Theorem async_set_spa_info_restarts_pump w
    (spa_address spa_identifier spa_name : option string) :
  decision_in (exec (async_set_spa_info C spa_address spa_identifier spa_name) w)
    = match spa_identifier with
      | Some i => ConnectByIdentifier i spa_address
      | None => Discover spa_address
      end.
Proof.
  unfold exec, async_set_spa_info. rewrite bind_run. simpl.
  rewrite bind_run. simpl. rewrite bind_run. simpl.
  rewrite async_reset_run. unfold decision_in. simpl.
  destruct spa_identifier; reflexivity.
Qed.

(** X11. A freshly built manager never rests: whatever keyword arguments
    it was built from, none at all included, the pump's first decision is to
    connect by identifier when a non-empty [spa_identifier] was given and to
    discover otherwise, with the configured address if it is non-empty. *)
Theorem fresh_manager_always_acts
    (client_identifier : string -> string) (client_uuid : string)
    (kw : gmap string string) (en : Env) :
  let this := __init__ client_identifier client_uuid kw in
  let w := {| man := this; env := en; trace := [] |} in
  decision_in w <> DoNothing
  /\ (forall i, kw !! "spa_identifier" = Some i -> i <> "" ->
       decision_in w = ConnectByIdentifier i (_spa_address this))
  /\ (kw !! "spa_identifier" = None \/ kw !! "spa_identifier" = Some "" ->
      decision_in w = Discover (_spa_address this))
  /\ pump_turn C w = perform C (decision_in w) w.
Proof.
  intros this w.
  assert (Hturn : pump_turn C w = perform C (decision_in w) w)
    by apply pump_turn_decides.
  revert Hturn. unfold decision_in, w, this. simpl.
  generalize (hint_from_config kw "spa_address"). intros addr.
  unfold hint_from_config. intros Hturn.
  split; [|split; [|split; [|exact Hturn]]].
  - destruct (decide (kw !! "spa_identifier" = Some ""));
      [discriminate|]. destruct (kw !! "spa_identifier"); discriminate.
  - intros i Hi Hne. rewrite Hi.
    destruct (decide (Some i = Some "")) as [[= ->]|]; [contradiction|reflexivity].
  - intros [Hi|Hi]; rewrite Hi; reflexivity.
Qed.

(** ** Runs without a recovering ping *)

Lemma disconnects_app (t1 t2 : list Action) :
  disconnects (t1 ++ t2) = disconnects t1 ++ disconnects t2.
Proof. apply omap_app. Qed.

Lemma handle_event_without_ping event kw w :
  event <> RUNNING_PING_RECEIVED ->
  holdings (man (exec (_handle_event C event kw) w)) = holdings (man w)
  /\ disconnects (trace (exec (_handle_event C event kw) w)) = disconnects (trace w).
Proof.
  intros Hev. rewrite handle_event_man, handle_event_trace.
  destruct (pre_process_without_ping event w Hev) as (Hh & _ & Ht).
  split; [exact Hh|].
  rewrite Ht, disconnects_app. apply app_nil_r.
Qed.

Lemma callbacks_without_ping events w :
  no_ping events ->
  holdings (man (exec (callbacks C events) w)) = holdings (man w)
  /\ disconnects (trace (exec (callbacks C events) w)) = disconnects (trace w).
Proof.
  intros Hno. revert w.
  induction Hno as [|[event kw] rest Hev _ IH]; intros w; [auto|].
  simpl in Hev. simpl. rewrite exec_bind.
  destruct (handle_event_without_ping event kw w Hev) as [Hh Hd].
  destruct (outcome (_handle_event C event kw) w); [|auto].
  destruct (IH (exec (_handle_event C event kw) w)) as [Hh' Hd'].
  split; congruence.
Qed.

Lemma call_discover_without_ping spa_address spa_identifier w :
  no_ping (locator_events (discover C spa_address spa_identifier (env w)).1) ->
  holdings (man (exec (call_discover C spa_address spa_identifier) w))
    = holdings (man w)
  /\ disconnects (trace (exec (call_discover C spa_address spa_identifier) w))
     = disconnects (trace w).
Proof.
  intros Hno. rewrite call_discover_exec.
  match goal with
  | |- context [exec (callbacks C ?evs) ?w1] =>
      destruct (callbacks_without_ping evs w1 Hno) as [Hh Hd]
  end.
  rewrite Hh, Hd. simpl. rewrite disconnects_app. simpl.
  rewrite app_nil_r. auto.
Qed.

(** What a discovery without a recovering ping leaves of the holdings:
    facade and session always, and the descriptors too when the Locator
    raised; and it disconnects nothing. *)
Lemma async_locate_spas_without_ping spa_address spa_identifier w :
  let ws := exec (_handle_event C LOCATING_STARTED ∅) w in
  let run := (discover C spa_address spa_identifier (env ws)).1 in
  let w' := exec (async_locate_spas C spa_address spa_identifier) w in
  no_ping (locator_events run) ->
  _facade (man w') = _facade (man w)
  /\ _spa (man w') = _spa (man w)
  /\ disconnects (trace w') = disconnects (trace w)
  /\ (forall what, locator_result run = inl what ->
       _spa_descriptors (man w') = _spa_descriptors (man w)
       /\ _spa_descriptors
            (man (exec (locate_try C spa_address spa_identifier) w))
          = _spa_descriptors (man w)).
Proof.
  intros ws run w' Hno. unfold w'.
  rewrite async_locate_spas_exec. unfold exec at 1 3 5 7.
  rewrite locate_finally_run.
  match goal with
  | |- context [(_handle_event C _ ?p ?w2).2] =>
      destruct (handle_event_without_ping LOCATING_FINISHED p w2) as [Hh Hd];
        [discriminate|]
  end.
  unfold exec at 1 in Hh. unfold exec at 1 in Hd.
  unfold holdings in Hh. injection Hh as Hh1 Hh2 Hh3.
  rewrite Hh1, Hh2, Hh3, Hd. clear Hh1 Hh2 Hh3 Hd.
  rewrite locate_try_exec. fold ws. simpl.
  destruct (handle_event_without_ping LOCATING_STARTED ∅ w) as [Hs Hsd];
    [discriminate|].
  fold ws in Hs, Hsd. unfold holdings in Hs. injection Hs as Hs1 Hs2 Hs3.
  destruct (outcome (_handle_event C LOCATING_STARTED ∅) w) as [[]|e].
  - destruct (call_discover_without_ping spa_address spa_identifier ws Hno)
      as [Hc Hcd].
    unfold holdings in Hc. injection Hc as Hc1 Hc2 Hc3.
    destruct (call_discover_outcome C spa_address spa_identifier ws) as [_ Hbad].
    fold run in Hbad.
    destruct (outcome (call_discover C spa_address spa_identifier) ws)
      as [spas|e] eqn:Hout; simpl.
    + repeat split; try congruence;
        destruct (Hbad what H) as (e & He & _); discriminate.
    + repeat split; congruence.
  - repeat split; congruence.
Qed.

(** X12. Connecting by identifier while a facade exists spoils the
    lifecycle state: discovery runs first and ends in [IDLE], and only then
    the assertion of [async_connect_to_spa] fails. With a Locator that finds
    something (and reports no recovering ping) the call raises
    [AssertionError] and leaves the manager [IDLE] with its facade still in
    place, the descriptors replaced, and no session opened. *)
Theorem async_connect_with_facade_ends_idle w
    (i : string) (a : option string)
    (first : GeckoAsyncSpaDescriptor) (rest : list GeckoAsyncSpaDescriptor) :
  let ws := exec (_handle_event C LOCATING_STARTED ∅) w in
  let w1 := exec (async_locate_spas C a (Some i)) w in
  is_Some (_facade (man w)) ->
  no_ping (locator_events (discover C a (Some i) (env ws)).1) ->
  outcome (async_locate_spas C a (Some i)) w = Returned (Some (first :: rest)) ->
  async_connect C i a w = (Raised AssertionError, w1)
  /\ _spa_state (man w1) = IDLE
  /\ _facade (man w1) = _facade (man w)
  /\ _spa_descriptors (man w1) = Some (first :: rest)
  /\ connects (trace w1) = connects (trace w).
Proof.
  intros ws w1 Hf Hno Hloc.
  destruct (async_locate_spas_without_ping a (Some i) w Hno) as (Hf1 & _ & _ & _).
  fold w1 in Hf1.
  split; [|split; [|split; [|split]]].
  - rewrite async_connect_run, Hloc. simpl. fold w1.
    apply async_connect_to_spa_refused. rewrite Hf1. exact Hf.
  - apply async_locate_spas_idle.
  - exact Hf1.
  - pose proof (async_locate_spas_outcome C a (Some i) w) as Ho. rewrite Hloc in Ho.
    destruct (outcome (locate_finally C) _); [|discriminate].
    destruct (outcome (locate_try C a (Some i)) w); [|discriminate].
    unfold w1. congruence.
  - apply async_locate_spas_connects.
Qed.

(** X13. A discovery that fails clears nothing: when the Locator raises
    (having reported no recovering ping), descriptors, facade and session
    are what they were before the call, so a list found earlier survives,
    and it is that earlier value the closing [LOCATING_FINISHED] carries;
    the call itself raises. *)
Theorem failed_discovery_keeps_holdings w
    (spa_address spa_identifier : option string) (what : string) :
  let ws := exec (_handle_event C LOCATING_STARTED ∅) w in
  let run := (discover C spa_address spa_identifier (env ws)).1 in
  let w' := exec (async_locate_spas C spa_address spa_identifier) w in
  locator_result run = inl what ->
  no_ping (locator_events run) ->
  holdings (man w') = holdings (man w)
  /\ last (trace w') =
       Some (Forwarded LOCATING_FINISHED
               {[ "spa_descriptors" := py_opt_descriptors (_spa_descriptors (man w)) ]})
  /\ exists e, outcome (async_locate_spas C spa_address spa_identifier) w = Raised e.
Proof.
  intros ws run w' Hbad Hno.
  destruct (async_locate_spas_without_ping spa_address spa_identifier w Hno)
    as (Hf & Hs & _ & Hdesc).
  destruct (Hdesc what Hbad) as [Hd Hd']. fold w' in Hf, Hs, Hd.
  split; [|split].
  - unfold holdings. congruence.
  - unfold w'. rewrite async_locate_spas_exec. unfold exec at 1.
    rewrite locate_finally_run, Hd'.
    match goal with
    | |- context [(_handle_event C _ ?p ?w2).2] =>
        pose proof (handle_event_trace C LOCATING_FINISHED p w2) as Ht
    end.
    unfold exec at 1 in Ht. rewrite Ht. apply last_snoc.
  - rewrite async_locate_spas_outcome.
    assert (Htry : exists e,
      outcome (locate_try C spa_address spa_identifier) w = Raised e).
    { destruct (outcome (_handle_event C LOCATING_STARTED ∅) w) as [[]|e] eqn:Hst.
      - destruct (locate_try_raised C _ _ _ _ Hst Hbad) as (e & He & _). eauto.
      - exists e. unfold locate_try. rewrite outcome_bind, Hst. reflexivity. }
    destruct Htry as [e ->].
    destruct (outcome (locate_finally C) _); eauto.
Qed.

Lemma connect_handshake_exec spa_descriptor w :
  exec (connect_handshake C spa_descriptor) w =
    let ws := exec (_handle_event C CONNECTION_STARTED ∅) w in
    let spa := {| spa_client_id := _client_id (man ws);
                  spa_descriptor := spa_descriptor |} in
    match outcome (_handle_event C CONNECTION_STARTED ∅) w with
    | Returned _ =>
        exec (call_connect C spa)
          {| man := set_spa (Some spa) (man ws); env := env ws; trace := trace ws |}
    | Raised _ => ws
    end.
Proof.
  unfold connect_handshake. rewrite exec_bind.
  destruct (outcome (_handle_event C CONNECTION_STARTED ∅) w); [|reflexivity].
  rewrite exec_bind. simpl. rewrite exec_bind. reflexivity.
Qed.

(** X14. A new connection attempt replaces the stored session without
    disconnecting anything: entered without a facade (the started event
    passing the handler, the handshake reporting no recovering ping),
    [async_connect_to_spa] opens exactly one session, bound to the given
    descriptor and the manager's client identity, stores it in place of
    whatever session a failed earlier attempt left, and disconnects none. *)
Theorem connect_replaces_session_without_disconnect w
    (spa_descriptor : GeckoAsyncSpaDescriptor) :
  let ws := exec (_handle_event C CONNECTION_STARTED ∅) w in
  let new := {| spa_client_id := _client_id (man w);
                spa_descriptor := spa_descriptor |} in
  let w' := exec (async_connect_to_spa C spa_descriptor) w in
  _facade (man w) = None ->
  outcome (_handle_event C CONNECTION_STARTED ∅) w = Returned tt ->
  no_ping (session_events (connect C new (env ws)).1) ->
  _spa (man w') = Some new
  /\ disconnects (trace w') = disconnects (trace w)
  /\ connects (trace w') = connects (trace w) ++ [new].
Proof.
  intros ws new w' Hf Hst Hno. unfold w'.
  rewrite async_connect_to_spa_exec by exact Hf.
  unfold exec at 1 3 5. rewrite connect_finally_run.
  match goal with
  | |- context [(_handle_event C _ ?p ?w2).2] =>
      destruct (handle_event_without_ping CONNECTION_FINISHED p w2) as [Hh Hd];
        [discriminate|];
      pose proof (handle_event_connects C CONNECTION_FINISHED p w2) as Hc
  end.
  unfold exec at 1 in Hh. unfold exec at 1 in Hd. unfold exec at 1 in Hc.
  unfold holdings in Hh. injection Hh as _ _ Hh3.
  rewrite Hh3, Hd, Hc. clear Hh3 Hd Hc.
  assert (Htry : _spa (man (exec (connect_try C spa_descriptor) w))
                   = _spa (man (exec (connect_handshake C spa_descriptor) w))
                 /\ trace (exec (connect_try C spa_descriptor) w)
                   = trace (exec (connect_handshake C spa_descriptor) w)).
  { rewrite connect_try_exec. simpl.
    destruct (outcome (connect_handshake C spa_descriptor) w); [|auto].
    destruct (decide _); auto. }
  destruct Htry as [-> ->].
  rewrite connect_handshake_exec, Hst. fold ws. simpl.
  assert (Hid : _client_id (man ws) = _client_id (man w)).
  { pose proof (handle_event_configuration CONNECTION_STARTED ∅ w) as Hcfg.
    unfold configuration in Hcfg. fold ws in Hcfg. congruence. }
  rewrite Hid. fold new. rewrite call_connect_exec. simpl.
  match goal with
  | |- context [exec (callbacks C ?evs) ?w1] =>
      destruct (callbacks_without_ping evs w1 Hno) as [Hh Hd];
      pose proof (callbacks_connects C evs w1) as Hc
  end.
  unfold holdings in Hh. injection Hh as _ _ Hh3.
  rewrite Hh3, Hd, Hc. simpl.
  destruct (handle_event_without_ping CONNECTION_STARTED ∅ w) as [_ Hsd];
    [discriminate|].
  pose proof (handle_event_connects C CONNECTION_STARTED ∅ w) as Hsc.
  fold ws in Hsd, Hsc.
  rewrite disconnects_app, connects_app, Hsd, Hsc. simpl.
  rewrite app_nil_r. auto.
Qed.

(** ** Configuration at construction *)

Lemma hint_from_config_spec (kw : gmap string string) (key s : string) :
  hint_from_config kw key = Some s <-> kw !! key = Some s /\ s <> "".
Proof.
  unfold hint_from_config.
  destruct (decide (kw !! key = Some "")) as [Heq|Hne].
  - rewrite Heq. split; [discriminate|]. intros [[= <-] Hs]. contradiction.
  - split.
    + intros Hk. split; [exact Hk|]. intros ->. contradiction.
    + tauto.
Qed.

Lemma hint_from_config_insert_ne (kw : gmap string string) (key key' v : string) :
  key' <> key ->
  hint_from_config (<[key' := v]> kw) key = hint_from_config kw key.
Proof.
  intros Hne. unfold hint_from_config. rewrite lookup_insert_ne by exact Hne.
  reflexivity.
Qed.

(** X15. [__init__] reads exactly three keywords. Each of
    [spa_address], [spa_identifier] and [spa_name] is stored if and only if
    it was given with a non-empty value (a missing key and an empty string
    both give [None]); every other keyword is ignored; and the manager
    starts [IDLE] with no descriptors, facade or session. *)
Theorem init_reads_three_keywords
    (client_identifier : string -> string) (client_uuid : string)
    (kw : gmap string string) :
  let this := __init__ client_identifier client_uuid kw in
  (forall s, _spa_address this = Some s <-> kw !! "spa_address" = Some s /\ s <> "")
  /\ (forall s,
        _spa_identifier this = Some s <-> kw !! "spa_identifier" = Some s /\ s <> "")
  /\ (forall s, _spa_name this = Some s <-> kw !! "spa_name" = Some s /\ s <> "")
  /\ (forall key v,
        key ∉ ["spa_address"; "spa_identifier"; "spa_name"] ->
        __init__ client_identifier client_uuid (<[key := v]> kw) = this)
  /\ _spa_state this = IDLE
  /\ holdings this = (None, None, None).
Proof.
  intros this. unfold this. simpl.
  split; [intros s; apply hint_from_config_spec|].
  split; [intros s; apply hint_from_config_spec|].
  split; [intros s; apply hint_from_config_spec|].
  split; [|split; reflexivity].
  intros key v Hkey. unfold __init__.
  rewrite !hint_from_config_insert_ne; [reflexivity|..];
    intros ->; apply Hkey; set_solver.
Qed.

(** ** Pings and the pump *)

Lemma ping_received_world kw w :
  man (exec (_handle_event C RUNNING_PING_RECEIVED kw) w) =
    man (stamp RUNNING_PING_RECEIVED
           (if state_in (_spa_state (man w))
                 [ERROR_PING_MISSED; ERROR_RF_FAULT; ERROR_NEEDS_ATTENTION]
            then reset_world C w else w)).
Proof.
  rewrite handle_event_man. unfold exec, pre_process. rewrite bind_run. simpl.
  destruct (state_in _ _); [rewrite async_reset_run|]; reflexivity.
Qed.

(** X16. What a ping does to the pump. Received in [ERROR_PING_MISSED],
    [ERROR_RF_FAULT] or [ERROR_NEEDS_ATTENTION] it always sets the pump going
    again: the next decision is to connect by the identifier hint, or to
    discover when there is none. Received in any other state, the not-found
    state included, it changes nothing the pump looks at, so a pump at rest
    stays at rest. *)
Theorem ping_restarts_pump_from_three_states_only w kw :
  let w' := exec (_handle_event C RUNNING_PING_RECEIVED kw) w in
  (_spa_state (man w) ∈ [ERROR_PING_MISSED; ERROR_RF_FAULT; ERROR_NEEDS_ATTENTION] ->
     decision_in w' =
       match _spa_identifier (man w) with
       | Some i => ConnectByIdentifier i (_spa_address (man w))
       | None => Discover (_spa_address (man w))
       end)
  /\ (_spa_state (man w) ∉ [ERROR_PING_MISSED; ERROR_RF_FAULT; ERROR_NEEDS_ATTENTION] ->
      decision_in w' = decision_in w).
Proof.
  intros w'. unfold w', decision_in. rewrite ping_received_world.
  split; intros Hst.
  - apply state_in_spec in Hst. rewrite Hst. simpl.
    destruct (_spa_identifier (man w)); reflexivity.
  - destruct (state_in _ _) eqn:Hin; [|reflexivity].
    apply state_in_spec in Hin. contradiction.
Qed.

(** ** A handshake that reports nothing *)

Lemma call_connect_silent spa w :
  session_events (connect C spa (env w)).1 = [] ->
  call_connect C spa w =
    (match session_result (connect C spa (env w)).1 with
     | None => Returned tt
     | Some what => Raised (Exception what)
     end,
     {| man := man w; env := (connect C spa (env w)).2;
        trace := trace w ++ [SpaConnect spa] |}).
Proof.
  unfold call_connect. rewrite bind_run.
  destruct (connect C spa (env w)) as [run0 en']. simpl. intros Hev.
  rewrite bind_run, Hev. simpl.
  destruct (session_result run0); reflexivity.
Qed.

(** X17. A handshake that reports no event never yields a facade,
    whether it returns or raises: entered without a facade (the handler
    raising nothing), [async_connect_to_spa] ends in [CONNECTING] with the
    new session stored and no facade, returns [None] or raises the session's
    exception, and leaves a manager on which the pump does nothing. *)
Theorem silent_handshake_stalls w (spa_descriptor : GeckoAsyncSpaDescriptor) :
  let ws := exec (_handle_event C CONNECTION_STARTED ∅) w in
  let new := {| spa_client_id := _client_id (man w);
                spa_descriptor := spa_descriptor |} in
  let run := (connect C new (env ws)).1 in
  let w' := exec (async_connect_to_spa C spa_descriptor) w in
  quiet C ->
  _facade (man w) = None ->
  session_events run = [] ->
  _spa_state (man w') = CONNECTING
  /\ _facade (man w') = None
  /\ _spa (man w') = Some new
  /\ outcome (async_connect_to_spa C spa_descriptor) w =
       match session_result run with
       | None => Returned None
       | Some what => Raised (Exception what)
       end
  /\ decision_in w' = DoNothing.
Proof.
  intros ws new run w' Hq Hf Hev.
  pose proof (quiet_handle_event_returns C CONNECTION_STARTED ∅ w Hq) as Hst.
  assert (Hid : _client_id (man ws) = _client_id (man w)).
  { pose proof (handle_event_configuration CONNECTION_STARTED ∅ w) as Hcfg.
    unfold configuration in Hcfg. fold ws in Hcfg. congruence. }
  assert (Hws : _spa_state (man ws) = CONNECTING /\ _facade (man ws) = None).
  { unfold ws. rewrite handle_event_man, connection_started_run. simpl. auto. }
  destruct Hws as [Hws1 Hws2].
  (* the handshake *)
  assert (Hhand : connect_handshake C spa_descriptor w =
            (match session_result run with
             | None => Returned tt
             | Some what => Raised (Exception what)
             end,
             {| man := set_spa (Some new) (man ws);
                env := (connect C new (env ws)).2;
                trace := trace ws ++ [SpaConnect new] |})).
  { unfold connect_handshake.
    rewrite (exec_bind_returned _ _ _ tt Hst). fold ws.
    rewrite bind_run. simpl. rewrite bind_run. simpl.
    rewrite Hid. fold new.
    rewrite call_connect_silent by exact Hev. reflexivity. }
  assert (Htry : connect_try C spa_descriptor w =
            (match session_result run with
             | None => Returned tt
             | Some what => Raised (Exception what)
             end,
             {| man := set_spa (Some new) (man ws);
                env := (connect C new (env ws)).2;
                trace := trace ws ++ [SpaConnect new] |})).
  { unfold connect_try. rewrite bind_run, Hhand.
    destruct (session_result run); [reflexivity|].
    rewrite bind_run. simpl. rewrite Hws1. reflexivity. }
  assert (Hw' : man w' =
            man (stamp CONNECTION_FINISHED
                   {| man := set_spa (Some new) (man ws);
                      env := (connect C new (env ws)).2;
                      trace := trace ws ++ [SpaConnect new] |})).
  { unfold w'. rewrite async_connect_to_spa_exec by exact Hf.
    unfold exec at 2. rewrite Htry. simpl.
    unfold exec. rewrite connect_finally_run.
    match goal with
    | |- context [(_handle_event C _ ?p ?w2).2] =>
        pose proof (connection_finished_man C p w2) as Hm
    end.
    unfold exec in Hm. rewrite Hm. simpl. rewrite Hws2. reflexivity. }
  rewrite Hw'. simpl. rewrite Hws1, Hws2.
  split; [reflexivity|]. split; [reflexivity|]. split; [reflexivity|].
  split.
  - unfold outcome. rewrite async_connect_to_spa_proceeds by exact Hf.
    rewrite bind_run.
    assert (Htf : try_finally (connect_try C spa_descriptor) (connect_finally C) w
              = (match session_result run with
                 | None => Returned tt
                 | Some what => Raised (Exception what)
                 end,
                 exec (connect_finally C) (exec (connect_try C spa_descriptor) w))).
    { unfold try_finally, exec. rewrite Htry. simpl.
      rewrite connect_finally_run.
      match goal with
      | |- context [_handle_event C CONNECTION_FINISHED ?p ?w2] =>
          pose proof (quiet_handle_event_returns C CONNECTION_FINISHED p w2 Hq) as Hfin;
          unfold outcome in Hfin;
          destruct (_handle_event C CONNECTION_FINISHED p w2) as [r w3]
      end.
      simpl in Hfin. subst r. reflexivity. }
    rewrite Htf. destruct (session_result run); [reflexivity|].
    simpl.
    pose proof (async_connect_to_spa_exec C spa_descriptor w Hf) as Hex.
    fold w' in Hex. rewrite <- Hex, Hw'. simpl. rewrite Hws2. reflexivity.
  - unfold decision_in. rewrite Hw'. simpl. rewrite Hws1. reflexivity.
Qed.

End Lifecycle.

(** * The lifecycle at work *)

Lemma demo_network_quiet (found : list GeckoAsyncSpaDescriptor) :
  quiet (Demo.network found).
Proof. intros this event kw en. reflexivity. Qed.

Lemma demo_broken_quiet : quiet Demo.broken.
Proof. intros this event kw en. reflexivity. Qed.

(** X4 at work: the connected demo manager through three turns of the
    pump. *)
Lemma connected_has_facade_witness :
  connected_has_facade (man Demo.connected)
  /\ connected_has_facade
       (man (exec (_sequence_pump (Demo.network [Demo.spa1]) 3) Demo.connected)).
Proof.
  assert (H : connected_has_facade (man Demo.connected))
    by (intros _; eexists; reflexivity).
  destruct (connected_has_facade_is_kept (Demo.network [Demo.spa1]) Demo.connected H)
    as (_ & _ & _ & _ & _ & _ & Hpump).
  exact (conj H (Hpump 3)).
Defined.

(** X7 at work: an identifier hint on a network with no spa, four turns. *)
Lemma pump_does_not_retry_witness :
  decision_in (Demo.fresh {[ "spa_identifier" := "ABC" ]})
    = ConnectByIdentifier "ABC" None
  /\ outcome (async_locate_spas (Demo.network []) None (Some "ABC"))
       (Demo.fresh {[ "spa_identifier" := "ABC" ]}) = Returned (Some [])
  /\ _sequence_pump (Demo.network []) 4 (Demo.fresh {[ "spa_identifier" := "ABC" ]})
     = (Returned tt,
        exec (async_connect (Demo.network []) "ABC" None)
          (Demo.fresh {[ "spa_identifier" := "ABC" ]})).
Proof.
  split; [reflexivity|]. split; [reflexivity|].
  exact (proj1 (pump_does_not_retry_not_found (Demo.network [])
                  (Demo.fresh {[ "spa_identifier" := "ABC" ]}) "ABC" None 3
                  (demo_network_quiet []) eq_refl eq_refl)).
Defined.

(** X8 at work: no hints on a network with one spa, four turns. *)
Lemma pump_discovers_once_witness :
  decision_in (Demo.fresh ∅) = Discover None
  /\ outcome (async_locate_spas (Demo.network [Demo.spa1]) None None) (Demo.fresh ∅)
     = Returned (Some [Demo.spa1])
  /\ _sequence_pump (Demo.network [Demo.spa1]) 4 (Demo.fresh ∅)
     = (Returned tt,
        exec (async_locate_spas (Demo.network [Demo.spa1]) None None) (Demo.fresh ∅)).
Proof.
  split; [reflexivity|]. split; [reflexivity|].
  exact (proj1 (pump_discovers_once (Demo.network [Demo.spa1]) (Demo.fresh ∅)
                  None (Some [Demo.spa1]) 3 eq_refl eq_refl)).
Defined.

(** X9 at work: no hints on the network whose Locator times out. *)
Lemma pump_ends_witness :
  decision_in (Demo.fresh ∅) <> DoNothing
  /\ _sequence_pump Demo.broken 4 (Demo.fresh ∅)
     = (Raised (Exception "timed out"),
        exec (async_locate_spas Demo.broken None None) (Demo.fresh ∅)).
Proof.
  assert (H : decision_in (Demo.fresh ∅) <> DoNothing) by discriminate.
  split; [exact H|].
  exact (pump_ends_when_discovery_raises Demo.broken (Demo.fresh ∅) "timed out" 3
           demo_broken_quiet H eq_refl).
Defined.

(** X12 at work: connecting by identifier on the connected demo
    manager. *)
Lemma async_connect_with_facade_witness :
  is_Some (_facade (man Demo.connected))
  /\ async_connect (Demo.network [Demo.spa2]) "SPA00:02" None Demo.connected
     = (Raised AssertionError,
        exec (async_locate_spas (Demo.network [Demo.spa2]) None (Some "SPA00:02"))
          Demo.connected).
Proof.
  assert (H : is_Some (_facade (man Demo.connected))) by (eexists; reflexivity).
  split; [exact H|].
  exact (proj1 (async_connect_with_facade_ends_idle (Demo.network [Demo.spa2])
                  Demo.connected "SPA00:02" None Demo.spa2 []
                  H (Forall_nil_2 _) eq_refl)).
Defined.

(** X13 at work: a discovery that times out on the connected demo
    manager, which holds one descriptor. *)
Lemma failed_discovery_witness :
  holdings (man (exec (async_locate_spas Demo.broken None None) Demo.connected))
    = holdings (man Demo.connected)
  /\ _spa_descriptors (man Demo.connected) = Some [Demo.spa1].
Proof.
  split; [|reflexivity].
  exact (proj1 (failed_discovery_keeps_holdings Demo.broken Demo.connected
                  None None "timed out" eq_refl (Forall_nil_2 _))).
Defined.

(** X14 at work: a connection from a manager that still holds the session
    of an earlier attempt. *)
Lemma connect_replaces_session_witness :
  let stale :=
    {| man := set_spa
                (Some {| spa_client_id := "IOSuuid"; spa_descriptor := Demo.spa2 |})
                (man (Demo.fresh ∅));
       env := tt; trace := [] |} in
  _spa (man (exec (async_connect_to_spa (Demo.network [Demo.spa1]) Demo.spa1) stale))
    = Some {| spa_client_id := "IOSuuid"; spa_descriptor := Demo.spa1 |}
  /\ disconnects
       (trace (exec (async_connect_to_spa (Demo.network [Demo.spa1]) Demo.spa1) stale))
     = [].
Proof.
  intros stale.
  destruct (connect_replaces_session_without_disconnect (Demo.network [Demo.spa1])
              stale Demo.spa1 eq_refl eq_refl) as (Hspa & Hdis & _).
  - apply Forall_cons_2; [discriminate | apply Forall_nil_2].
  - exact (conj Hspa Hdis).
Defined.

(** X17 at work: a handshake that reports nothing and raises. *)
Lemma silent_handshake_witness :
  _facade (man (Demo.fresh ∅)) = None
  /\ _spa_state (man (exec (async_connect_to_spa Demo.broken Demo.spa1) (Demo.fresh ∅)))
     = CONNECTING
  /\ outcome (async_connect_to_spa Demo.broken Demo.spa1) (Demo.fresh ∅)
     = Raised (Exception "unreachable").
Proof.
  destruct (silent_handshake_stalls Demo.broken (Demo.fresh ∅) Demo.spa1
              demo_broken_quiet eq_refl eq_refl) as (Hst & _ & _ & Hout & _).
  exact (conj eq_refl (conj Hst Hout)).
Defined.
